(** * Page behaviour of the astro-multiverse site script

    A shallow embedding of the client-side script (panel toggler, footer
    relocation, gallery scan, lightbox overlay) and the properties the
    specification states about it.

    Conventions.
    - DOM elements are identified by a [node]; everything the script reads
      or writes on an element (its class list, its children) lives in a
      store indexed by nodes, so that two references to one element alias.
    - An event handler is a function from the event and the store to the
      event (with its [defaultPrevented]/[propagationStopped] flags) and
      the new store.
    - Results of document queries ([querySelectorAll], [getElementById])
      are inputs of the setup routines: the markup is not part of the
      script. *)

From stdpp Require Import gmap strings list.
From Stdlib Require Import ZArith.

Open Scope string_scope.

Set Warnings "-clear-no-such-hyp".

(** ** DOM elements, class lists and events *)

Definition node := nat.

Module Dom.

(** [element.classList] of every element; an element never touched has
    the empty class list unless the markup gave it one. *)
Abbreviation classes := (gmap node (gset string)).

Definition classList (d : classes) (n : node) : gset string :=
  default ∅ (d !! n).

Definition contains (d : classes) (n : node) (c : string) : bool :=
  bool_decide (c ∈ classList d n).

Definition add (d : classes) (n : node) (c : string) : classes :=
  <[n := classList d n ∪ {[c]}]> d.

Definition remove (d : classes) (n : node) (c : string) : classes :=
  <[n := classList d n ∖ {[c]}]> d.

(** The two flags of an [Event] the handlers act on. *)
Record Event := mkEvent {
  defaultPrevented : bool;
  propagationStopped : bool
}.

Definition fresh_event : Event := mkEvent false false.

Definition preventDefault (e : Event) : Event :=
  mkEvent true (propagationStopped e).

Definition stopPropagation (e : Event) : Event :=
  mkEvent (defaultPrevented e) true.

Record KeyboardEvent := mkKey {
  key : string;
  flags : Event
}.

Definition on_flags (f : Event → Event) (e : KeyboardEvent) : KeyboardEvent :=
  mkKey (key e) (f (flags e)).

End Dom.

Import Dom.

(** ** Panel toggler ([setupPanels]) *)

Module Panels.

(** One entry of [panelMap]: the panel, the elements whose [href] is
    ["#" ++ id] and the optional [.closer] inside the panel. *)
Record entry := mkEntry {
  panel : node;
  toggles : list node;
  closer : option node
}.

Section Setup.

(** [document.body] and the [panelMap] computed once by [setupPanels]. *)
Variable body : node.
Variable panelMap : list entry.

Definition hidePanel (p : node) (ts : list node) (d : classes) : classes :=
  let d1 := remove d p "active" in
  let d2 := foldl (fun acc t => remove acc t "active") d1 ts in
  remove d2 body "content-active".

(** The [panelMap.forEach(entry => hidePanel(...))] loop shared by
    [showPanel], [onBodyClick] and [onKeyUp]. *)
Definition hideAll (d : classes) : classes :=
  foldl (fun acc e => hidePanel (panel e) (toggles e) acc) d panelMap.

Definition showPanel (p : node) (ts : list node) (d : classes) : classes :=
  let d1 := hideAll d in
  let d2 := add d1 p "active" in
  let d3 := foldl (fun acc t => add acc t "active") d2 ts in
  add d3 body "content-active".

Definition togglePanel (p : node) (ts : list node) (d : classes) : classes :=
  if contains d p "active" then hidePanel p ts d else showPanel p ts d.

(** Listeners registered by [setupPanels]. *)

Definition panelClick (ev : Event) (d : classes) : Event * classes :=
  (stopPropagation ev, d).

Definition onToggleClick (p : node) (ts : list node)
    (ev : Event) (d : classes) : Event * classes :=
  (stopPropagation (preventDefault ev), togglePanel p ts d).

Definition onCloseClick (p : node) (ts : list node)
    (ev : Event) (d : classes) : Event * classes :=
  (preventDefault ev, hidePanel p ts d).

Definition onBodyClick (ev : Event) (d : classes) : Event * classes :=
  if contains d body "content-active"
  then (stopPropagation (preventDefault ev), hideAll d)
  else (ev, d).

Definition onKeyUp (ev : KeyboardEvent) (d : classes)
    : KeyboardEvent * classes :=
  if (key ev =? "Escape")%string && contains d body "content-active"
  then (on_flags stopPropagation (on_flags preventDefault ev), hideAll d)
  else (ev, d).

(** One invocation of a registered listener.  [ToggleClick k j] is the
    listener on the [j]-th toggle of the [k]-th entry, [CloserClick k]
    the one on that entry's closer (registered only when there is
    one). *)
Inductive action :=
| PanelClick (k : nat)
| ToggleClick (k j : nat)
| CloserClick (k : nat)
| BodyClick
| KeyUp (key : string).

Definition fire (a : action) (d : classes) : classes :=
  match a with
  | PanelClick k =>
      match panelMap !! k with
      | Some _ => snd (panelClick fresh_event d)
      | None => d
      end
  | ToggleClick k j =>
      match panelMap !! k with
      | Some e =>
          match toggles e !! j with
          | Some _ => snd (onToggleClick (panel e) (toggles e) fresh_event d)
          | None => d
          end
      | None => d
      end
  | CloserClick k =>
      match panelMap !! k with
      | Some e =>
          match closer e with
          | Some _ => snd (onCloseClick (panel e) (toggles e) fresh_event d)
          | None => d
          end
      | None => d
      end
  | BodyClick => snd (onBodyClick fresh_event d)
  | KeyUp k => snd (onKeyUp (mkKey k fresh_event) d)
  end.

(** States reachable from [d0] by listener invocations. *)
Inductive reachable (d0 : classes) : classes → Prop :=
| reach_init : reachable d0 d0
| reach_fire a d : reachable d0 d → reachable d0 (fire a d).

Definition active (d : classes) (n : node) : Prop :=
  contains d n "active" = true.

Definition content_active (d : classes) : Prop :=
  contains d body "content-active" = true.

(** The panels of [panelMap]. *)
Definition is_panel (n : node) : Prop := ∃ e, e ∈ panelMap ∧ panel e = n.

Definition at_most_one_active (d : classes) : Prop :=
  ∀ p q, is_panel p → is_panel q → active d p → active d q → p = q.

Definition no_panel_active (d : classes) : Prop :=
  ∀ p, is_panel p → ¬ active d p.

(** Markup convention: a toggle (an element with [href="#id"]) is not
    itself a [.panel] element. *)
Definition toggles_apart : Prop :=
  ∀ e t, e ∈ panelMap → t ∈ toggles e → ¬ is_panel t.

End Setup.

End Panels.

(** ** Footer relocation ([setupFooterCopyright]) *)

Module Footer.

(** The part of the document tree the routine reads and writes: the
    parent pointer of every element and the ordered element children of
    every element. *)
Record tree := mkTree {
  parents : gmap node node;
  kids : gmap node (list node)
}.

Definition parentElement (d : tree) (n : node) : option node :=
  parents d !! n.

Definition children (d : tree) (n : node) : list node :=
  default [] (kids d !! n).

Definition lastElementChild (d : tree) (n : node) : option node :=
  last (children d n).

Definition without (c : node) (l : list node) : list node :=
  filter (λ n, n ≠ c) l.

(** [target.appendChild(c)]: [c] leaves its current parent, if any, and
    becomes the last child of [target].  (The script only ever appends
    the copyright block to an element that is not one of its
    descendants, so the hierarchy error of the DOM cannot arise.) *)
Definition appendChild (target c : node) (d : tree) : tree :=
  let detached :=
    match parentElement d c with
    | Some p => <[p := without c (children d p)]> (kids d)
    | None => kids d
    end in
  mkTree (<[c := target]> (parents d))
         (<[target := (default [] (detached !! target) ++ [c])%list]> detached).

(** [window.matchMedia("(max-width: 980px)").matches] for a viewport
    that is [width] CSS pixels wide. *)
Definition max_width_980 (width : Z) : bool := (width <=? 980)%Z.

(** The three elements [setupFooterCopyright] resolves before it
    registers anything. *)
Record located := mkLocated {
  copyright : node;
  parent : node;
  lastParent : node
}.

(** [footer] is [document.getElementById("footer")] and [query] stands
    for [querySelector(".copyright")] on an element. *)
Definition locate (footer : option node) (query : node → option node)
    (d : tree) : option located :=
  c ← footer ≫= query;
  p ← parentElement d c;
  lp ← parentElement d p ≫= lastElementChild d;
  Some (mkLocated c p lp).

Definition updateLocation (l : located) (matches : bool) (d : tree) : tree :=
  if matches
  then appendChild (lastParent l) (copyright l) d
  else appendChild (parent l) (copyright l) d.

(** Runs the routine at viewport width [width]; returns the document and
    the elements captured by the registered [change] listener ([None]
    when the routine returned early and registered nothing). *)
Definition setupFooterCopyright (footer : option node)
    (query : node → option node) (width : Z) (d : tree)
    : option located * tree :=
  match locate footer query d with
  | None => (None, d)
  | Some l => (Some l, updateLocation l (max_width_980 width) d)
  end.

(** A [change] event of the media query list, delivered when the
    viewport is [width] pixels wide. *)
Definition onChange (listener : option located) (width : Z) (d : tree) : tree :=
  match listener with
  | None => d
  | Some l => updateLocation l (max_width_980 width) d
  end.

Definition after_changes (listener : option located) (widths : list Z)
    (d : tree) : tree :=
  foldl (λ acc w, onChange listener w acc) d widths.

(** The container the listener moves the block to at a given width. *)
Definition target_of (l : located) (width : Z) : node :=
  if max_width_980 width then lastParent l else parent l.

(** The element [c] sits in container [p]. *)
Definition resides (d : tree) (c p : node) : Prop :=
  parentElement d c = Some p ∧ c ∈ children d p.

End Footer.

(** ** Gallery scan ([getGalleryItems]) *)

Module Gallery.

Record GalleryItem := mkItem {
  href : string;
  caption : option string
}.

(** What the scan reads of the document. *)
Record document := mkDocument {
  parentElement : node → option node;
  children : node → list node;
  outerHTML : node → string;
  getAttribute_href : node → option string
}.

(** [Array.prototype.join("")]. *)
Definition join (l : list string) : string := String.concat "" l.

(** [caption || undefined]. *)
Definition or_undefined (s : string) : option string :=
  if (s =? "")%string then None else Some s.

Definition item_of (doc : document) (anchor : node) : GalleryItem :=
  let siblings :=
    match parentElement doc anchor with
    | Some p => children doc p
    | None => []
    end in
  let caption :=
    join (map (outerHTML doc) (filter (λ n, n ≠ anchor) siblings)) in
  mkItem (default "" (getAttribute_href doc anchor)) (or_undefined caption).

(** [anchors] is the result of
    [querySelectorAll("#main .thumb > a.image")], in document order. *)
Definition getGalleryItems (doc : document) (anchors : list node)
    : list GalleryItem :=
  map (item_of doc) anchors.

(** The caption in the words of the specification: the markup of a list
    of elements, written one after the other, *)
Fixpoint markup (doc : document) (l : list node) : string :=
  match l with
  | [] => ""
  | n :: l' => outerHTML doc n ++ markup doc l'
  end.

(** taken over the element siblings of [anchor], itself left out, in
    order. *)
Definition siblings_of (doc : document) (anchor : node) : list node :=
  filter (λ n, n ≠ anchor)
    (from_option (children doc) [] (parentElement doc anchor)).

End Gallery.

(** ** Lightbox overlay (the [SiteScripts] component) *)

Module Lightbox.

Import Gallery.

(** The four [useState] cells, and [preview]: the source of the preload
    [Image] whose [onload]/[onerror] are currently attached ([None]
    once the effect's cleanup has detached them, or when the effect
    returned early). *)
Record state := mkState {
  items : list GalleryItem;
  isOpen : bool;
  activeIndex : Z;
  isLoading : bool;
  preview : option string
}.

Definition initial : state := mkState [] false 0 false None.

Definition setItems (v : list GalleryItem) (s : state) : state :=
  mkState v (isOpen s) (activeIndex s) (isLoading s) (preview s).

Definition setIsOpen (v : bool) (s : state) : state :=
  mkState (items s) v (activeIndex s) (isLoading s) (preview s).

(** [setActiveIndex] with an updater function. *)
Definition setActiveIndex (f : Z → Z) (s : state) : state :=
  mkState (items s) (isOpen s) (f (activeIndex s)) (isLoading s) (preview s).

Definition setIsLoading (v : bool) (s : state) : state :=
  mkState (items s) (isOpen s) (activeIndex s) v (preview s).

Definition setPreview (v : option string) (s : state) : state :=
  mkState (items s) (isOpen s) (activeIndex s) (isLoading s) v.

(** [items.length]. *)
Definition count (s : state) : Z := Z.of_nat (length (items s)).

(** [items[activeIndex]]: [undefined] outside the array. *)
Definition item_at (l : list GalleryItem) (i : Z) : option GalleryItem :=
  if (i <? 0)%Z then None else l !! Z.to_nat i.

Definition activeItem (s : state) : option GalleryItem :=
  item_at (items s) (activeIndex s).

(** [activeItem?.href]. *)
Definition activeHref (s : state) : option string := href <$> activeItem s.

(** The [%] of JavaScript on integers truncates towards zero, as [Z.rem]
    does.  The divisor [items.length] is not 0 where these run: the
    [keydown] listener returns early on an empty list and the controls
    exist only while an item is shown. *)
Definition next_index (n i : Z) : Z := Z.rem (i + 1) n.
Definition previous_index (n i : Z) : Z := Z.rem (i - 1 + n) n.

(** The component renders the overlay only if
    [isOpen && activeItem]; its controls exist only then. *)
Definition rendered (s : state) : bool :=
  isOpen s && bool_decide (is_Some (activeItem s)).

(** *** Listeners *)

(** Click on the [index]-th thumbnail anchor. *)
Definition anchorClick (index : nat) (ev : Event) (s : state) : Event * state :=
  (stopPropagation (preventDefault ev),
   setIsOpen true (setIsLoading true (setActiveIndex (λ _, Z.of_nat index) s))).

(** The [keydown] listener on [window].  It runs only for a [keydown]
    that reaches [window]: see [popupKeyDown]. *)
Definition onKeyDown (ev : KeyboardEvent) (s : state) : KeyboardEvent * state :=
  if negb (isOpen s) then (ev, s)
  else if (count s =? 0)%Z then (ev, s)
  else
    let n := count s in
    let '(ev1, s1) :=
      if (key ev =? "Escape")%string
      then (on_flags preventDefault ev, setIsOpen false s)
      else (ev, s) in
    let '(ev2, s2) :=
      if (key ev =? "ArrowRight")%string || (key ev =? " ")%string
      then (on_flags preventDefault ev1,
            setIsLoading true (setActiveIndex (next_index n) s1))
      else (ev1, s1) in
    if (key ev =? "ArrowLeft")%string
    then (on_flags preventDefault ev2,
          setIsLoading true (setActiveIndex (previous_index n) s2))
    else (ev2, s2).

(** The [onKeyDown] of the popup: a [keydown] whose target lies inside
    the popup (the popup itself or a focused control in it) has its
    propagation stopped there and never reaches the listener on
    [window]. *)
Definition popupKeyDown (ev : KeyboardEvent) (s : state)
    : KeyboardEvent * state :=
  (on_flags stopPropagation ev, s).

Definition backdropClick (s : state) : state := setIsOpen false s.

(** Click on the popup; [interactive] is whether the target lies in
    [img, .caption, .caption a, .nav-previous, .nav-next, .closer]. *)
Definition popupClick (interactive : bool) (s : state) : state :=
  if interactive then s else setIsOpen false s.

Definition closerClick (ev : Event) (s : state) : Event * state :=
  (stopPropagation ev, setIsOpen false s).

Definition previousClick (ev : Event) (s : state) : Event * state :=
  (stopPropagation ev,
   setIsLoading true (setActiveIndex (previous_index (count s)) s)).

Definition nextClick (ev : Event) (s : state) : Event * state :=
  (stopPropagation ev,
   setIsLoading true (setActiveIndex (next_index (count s)) s)).

(** [onLoad] and [onError] of the visible image. *)
Definition imgOnLoad (s : state) : state := setIsLoading false s.
Definition imgOnError (s : state) : state := setIsLoading false s.

(** [handleComplete], installed as both [onload] and [onerror] of the
    preload image. *)
Definition handleComplete (s : state) : state := setIsLoading false s.

(** *** The preload effect, dependencies [[isOpen, activeItem?.href]] *)

Definition deps (s : state) : bool * option string := (isOpen s, activeHref s).

(** [complete src] is [previewImage.complete] right after
    [previewImage.src = src]: whether the browser already holds the
    image. *)
Definition preloadEffect (complete : string → bool) (s : state) : state :=
  let s0 := setPreview None s in
  match activeHref s with
  | Some src =>
      if negb (isOpen s) || (src =? "")%string then s0
      else
        let s1 := setIsLoading true s0 in
        let s2 := setPreview (Some src) s1 in
        if complete src then setIsLoading false s2 else s2
  | None => s0
  end.

(** After a render the effect runs again only if a dependency
    changed. *)
Definition settle (complete : string → bool) (before after : state) : state :=
  if decide (deps before = deps after) then after
  else preloadEffect complete after.

(** *** Events of the mounted component *)

Inductive event :=
| AnchorClick (index : nat)
| KeyDown (key : string)
| PopupKeyDown (key : string)
| BackdropClick
| PopupClick (interactive : bool)
| CloserClick
| PreviousClick
| NextClick
| ImgLoad
| ImgError
| PreviewLoad
| PreviewError.

(** [KeyDown k] is a [keydown] whose target lies outside the popup, so
    that it reaches [window]; [PopupKeyDown k] is one whose target lies
    inside the popup, where it is stopped.

    The listener an event reaches, if it is registered in state [s]:
    one anchor listener per thumbnail anchor (the anchors are those the
    gallery scan of the same mount saw, so there are as many as items),
    the overlay controls while the overlay is rendered, the preload
    callbacks while attached. *)
Definition handle (e : event) (s : state) : state :=
  match e with
  | AnchorClick i =>
      if bool_decide (i < length (items s)) then snd (anchorClick i fresh_event s) else s
  | KeyDown k => snd (onKeyDown (mkKey k fresh_event) s)
  | PopupKeyDown k =>
      if rendered s then snd (popupKeyDown (mkKey k fresh_event) s) else s
  | BackdropClick => if rendered s then backdropClick s else s
  | PopupClick b => if rendered s then popupClick b s else s
  | CloserClick => if rendered s then snd (closerClick fresh_event s) else s
  | PreviousClick => if rendered s then snd (previousClick fresh_event s) else s
  | NextClick => if rendered s then snd (nextClick fresh_event s) else s
  | ImgLoad => if rendered s then imgOnLoad s else s
  | ImgError => if rendered s then imgOnError s else s
  | PreviewLoad => if preview s is Some _ then handleComplete s else s
  | PreviewError => if preview s is Some _ then handleComplete s else s
  end.

(** One event: its listener, the re-render, the effect. *)
Definition step (complete : string → bool) (e : event) (s : state) : state :=
  settle complete s (handle e s).

Definition run (complete : string → bool) (es : list event) (s : state) : state :=
  foldl (λ acc e, step complete e acc) s es.

(** The active index after each prefix of [es], the start included. *)
Fixpoint index_trace (complete : string → bool) (es : list event) (s : state)
    : list Z :=
  activeIndex s ::
  match es with
  | [] => []
  | e :: es' => index_trace complete es' (step complete e s)
  end.

(** The mount effects: the gallery is scanned once and stored. *)
Definition mount (complete : string → bool) (doc : document)
    (anchors : list node) : state :=
  settle complete initial (setItems (getGalleryItems doc anchors) initial).

(** The events by which the image resource reports load or error. *)
Definition load_or_error (e : event) : Prop :=
  e = ImgLoad ∨ e = ImgError ∨ e = PreviewLoad ∨ e = PreviewError.

(** States of the mounted component. *)
Inductive reachable : state → Prop :=
| reach_mount complete doc anchors : reachable (mount complete doc anchors)
| reach_step complete e s : reachable s → reachable (step complete e s).

(** The preload image the last run of the effect left attached, as a
    function of the effect's dependencies. *)
Definition attached (s : state) : option string :=
  match activeHref s with
  | Some src => if negb (isOpen s) || (src =? "")%string then None else Some src
  | None => None
  end.

(** [P] holds of [s] and after every event of [es]. *)
Fixpoint throughout (P : state → bool) (complete : string → bool)
    (es : list event) (s : state) : bool :=
  P s &&
  match es with
  | [] => true
  | e :: es' => throughout P complete es' (step complete e s)
  end.

(** The active item has the empty link target. *)
Definition empty_target (s : state) : bool :=
  bool_decide (activeHref s = Some "").

Definition image_event (e : event) : bool :=
  match e with
  | ImgLoad | ImgError => true
  | _ => false
  end.

End Lightbox.

(** ** The page: class lists and lightbox together *)

Module Page.

Record page := mkPage {
  dom : classes;
  lightbox : Lightbox.state
}.

Section Listeners.

Variable body : node.
Variable panelMap : list Panels.entry.

(** The effect with dependencies [[isOpen, items.length]] mirrors
    [isOpen] as the body class [modal-active]. *)
Definition modalEffect (s : Lightbox.state) (d : classes) : classes :=
  if Lightbox.isOpen s then add d body "modal-active"
  else remove d body "modal-active".

Definition modal_deps (s : Lightbox.state) : bool * Z :=
  (Lightbox.isOpen s, Lightbox.count s).

(** A [keydown] event.  [inside] says whether its target lies inside
    the popup of the lightbox: then the popup stops it; otherwise it
    arrives at [window], where only the lightbox listens. *)
Definition keydown (complete : string → bool) (inside : bool) (k : string)
    (pg : page) : page :=
  let s := lightbox pg in
  let e := if inside then Lightbox.PopupKeyDown k else Lightbox.KeyDown k in
  let s' := Lightbox.step complete e s in
  let d' := if decide (modal_deps s = modal_deps s') then dom pg
            else modalEffect s' (dom pg) in
  mkPage d' s'.

(** A [keyup] event arriving at [window]: only the panel toggler
    listens. *)
Definition keyup (k : string) (pg : page) : page :=
  mkPage (snd (Panels.onKeyUp body panelMap (mkKey k fresh_event) (dom pg)))
         (lightbox pg).

End Listeners.

End Page.

(** ** Sample pages used to run the definitions *)

Module Samples.

(** Body is node 0; a footer panel 1 with toggle 3 and a closer 10, and a
    second panel 2 with toggle 4 and no closer. *)
Definition body : node := 0.

Definition panels : list Panels.entry :=
  [Panels.mkEntry 1 [3] (Some 10); Panels.mkEntry 2 [4] None].

(** The second panel opened by its toggle. *)
Definition second_open : classes :=
  Panels.fire body panels (Panels.ToggleClick 1 0) ∅.

(** Then the closer of the first panel clicked. *)
Definition second_open_first_closed : classes :=
  Panels.fire body panels (Panels.CloserClick 0) second_open.

(** Three thumbnails: anchors 11, 12 and 13 inside the articles 21, 22
    and 23, each followed by a heading; the third anchor has no [href]. *)
Definition anchors : list node := [11; 12; 13].

Definition doc : Gallery.document :=
  Gallery.mkDocument
    (λ n, match n with 11 | 31 => Some 21 | 12 | 32 => Some 22 | 13 => Some 23 | _ => None end)
    (λ n, match n with 21 => [11; 31] | 22 => [12; 32] | 23 => [13] | _ => [] end)
    (λ n, match n with 31 => "<h2>One</h2>" | 32 => "<h2>Two</h2>" | _ => "" end)
    (λ n, match n with 11 => Some "one.jpg" | 12 => Some "two.jpg" | _ => None end).

(** A footer 40 whose inner block 41 holds the columns 42 and 43; the
    copyright block 44 follows a section 45 in the first column, a form
    46 fills the second. *)
Definition footer_tree : Footer.tree :=
  Footer.mkTree
    (list_to_map [(41, 40); (42, 41); (43, 41); (45, 42); (44, 42); (46, 43)])
    (list_to_map [(40, [41]); (41, [42; 43]); (42, [45; 44]); (43, [46])]).

Definition footer_query (n : node) : option node :=
  if decide (n = 40) then Some 44 else None.

Definition footer_located : Footer.located := Footer.mkLocated 44 42 43.

(** Every image is already held by the browser, or none is. *)
Definition all_cached : string → bool := λ _, true.
Definition none_cached : string → bool := λ _, false.

Definition mounted : Lightbox.state := Lightbox.mount none_cached doc anchors.

End Samples.

(** ** Thumbnail backgrounds ([updateThumbBackgrounds]) *)

Module Thumbs.

(** What the routine reads of an [img] element.  [currentSrc] and [src]
    are strings (empty when unset), [getAttribute("src")] and
    [dataset.position] may be missing. *)
Record image := mkImage {
  currentSrc : string;
  src : string;
  src_attribute : option string;
  data_position : option string;
  complete : bool
}.

(** Truthiness of a string-or-missing value, and the [||] built on it. *)
Definition truthy (v : option string) : bool :=
  match v with
  | Some s => negb (s =? "")%string
  | None => false
  end.

Definition js_or (a b : option string) : option string :=
  if truthy a then a else b.

(** [img.currentSrc || img.src || img.getAttribute("src") || ""]. *)
Definition source_of (now : image) : string :=
  default ""
    (js_or (js_or (js_or (Some (currentSrc now)) (Some (src now)))
                  (src_attribute now))
           (Some "")).

(** What the routine writes for one anchor: the values last assigned to
    [anchor.style.backgroundImage], [anchor.style.backgroundPosition] and
    [img.style.display], and the [load] listeners registered with
    [once: true], each with the [position] it captured. *)
Record thumb := mkThumb {
  backgroundImage : string;
  backgroundPosition : string;
  display : string;
  listeners : list (option string)
}.

Definition setBackground (position : option string) (now : image)
    (t : thumb) : thumb :=
  let source := source_of now in
  if (source =? "")%string then t
  else mkThumb ("url(" ++ source ++ ")")
               (if truthy position then default "" position
                else backgroundPosition t)
               "none"
               (listeners t).

(** The body of the [forEach] for one anchor; [img] is
    [anchor.querySelector("img")]. *)
Definition updateThumb (img : option image) (t : thumb) : thumb :=
  match img with
  | None => t
  | Some im =>
      if complete im then setBackground (data_position im) im t
      else mkThumb (backgroundImage t) (backgroundPosition t) (display t)
                   (listeners t ++ [data_position im])%list
  end.

Definition updateThumbBackgrounds (imgs : list (option image))
    (ts : list thumb) : list thumb :=
  zip_with updateThumb imgs ts.

(** A [load] event on the image, whose properties are then [now]: the
    registered listeners run in order and, being [once], are gone. *)
Definition loadEvent (now : image) (t : thumb) : thumb :=
  foldl (λ acc position, setBackground position now acc)
        (mkThumb (backgroundImage t) (backgroundPosition t) (display t) [])
        (listeners t).

Definition after_loads (nows : list image) (t : thumb) : thumb :=
  foldl (λ acc now, loadEvent now acc) t nows.

End Thumbs.

(** ** Header links ([setupHeaderLinks]) *)

Module HeaderLinks.

(** The anchors that get a click listener, each with the [href] its
    listener captured.  [header] is [document.getElementById("header")],
    [anchors] stands for [querySelectorAll("a")] on it and [href] for
    [getAttribute("href")]. *)
Definition setupHeaderLinks (header : option node)
    (anchors : node → list node) (href : node → option string)
    : list (node * string) :=
  match header with
  | None => []
  | Some h =>
      omap (λ a,
              match href a with
              | None => None
              | Some target =>
                  if (target =? "")%string || String.prefix "#" target
                  then None
                  else Some (a, target)
              end)
           (anchors h)
  end.

(** The listener: the third component is the value assigned to
    [window.location.href]. *)
Definition onClick (target : string) (ev : Event) (location : string)
    : Event * string :=
  (stopPropagation (preventDefault ev), target).

(** A click on anchor [a] runs every listener registered on it. *)
Definition click (registered : list (node * string)) (a : node)
    (ev : Event) (location : string) : Event * string :=
  foldl (λ acc r, if decide (fst r = a) then onClick (snd r) (fst acc) (snd acc)
                  else acc)
        (ev, location) registered.

End HeaderLinks.

(** ** The mount effect: browser classes, preload and resize timers *)

Module MountEffect.

(** The callbacks handed to [window.setTimeout]. *)
Inductive callback :=
| RemovePreload
| RemoveResizing.

(** [timers] are the pending timeouts of the effect by handle,
    [resizeTimeout] the variable of that name, [nextHandle] the handle
    the browser hands out next (handles are positive and never reused),
    [listening] whether the [load] and [resize] listeners are
    registered. *)
Record state := mkState {
  cls : classes;
  timers : gmap nat callback;
  resizeTimeout : nat;
  nextHandle : nat;
  listening : bool
}.

(** The script's view of the browser. *)
Record browser := mkBrowser {
  is_ie : bool;
  is_touch : bool;
  supportsTransition : bool
}.

Section Body.

Variable body : node.

Definition setTimeout (cb : callback) (st : state) : nat * state :=
  (nextHandle st,
   mkState (cls st) (<[nextHandle st := cb]> (timers st)) (resizeTimeout st)
           (S (nextHandle st)) (listening st)).

Definition clearTimeout (handle : nat) (st : state) : state :=
  mkState (cls st) (delete handle (timers st)) (resizeTimeout st)
          (nextHandle st) (listening st).

Definition with_cls (f : classes → classes) (st : state) : state :=
  mkState (f (cls st)) (timers st) (resizeTimeout st) (nextHandle st)
          (listening st).

Definition onLoad (st : state) : state := snd (setTimeout RemovePreload st).

Definition onResize (st : state) : state :=
  let st1 := clearTimeout (resizeTimeout st) st in
  let st2 := with_cls (λ d, add d body "is-resizing") st1 in
  let '(handle, st3) := setTimeout RemoveResizing st2 in
  mkState (cls st3) (timers st3) handle (nextHandle st3) (listening st3).

(** The first part of the mount effect, up to the listener
    registration; [first] is the first free timer handle. *)
Definition mountEffect (b : browser) (first : nat) (d : classes) : state :=
  let d1 := if is_ie b then add d body "ie" else d in
  let d2 := if is_touch b then add d1 body "touch" else d1 in
  let st := mkState d2 ∅ 0 first false in
  if supportsTransition b
  then mkState (cls st) (timers st) (resizeTimeout st) (nextHandle st) true
  else onLoad st.

Inductive event :=
| Load
| Resize
| Timeout (handle : nat).

Definition run_callback (cb : callback) (st : state) : state :=
  match cb with
  | RemovePreload => with_cls (λ d, remove d body "is-preload") st
  | RemoveResizing => with_cls (λ d, remove d body "is-resizing") st
  end.

Definition handle (e : event) (st : state) : state :=
  match e with
  | Load => if listening st then onLoad st else st
  | Resize => if listening st then onResize st else st
  | Timeout h =>
      match timers st !! h with
      | Some cb => run_callback cb (clearTimeout h st)
      | None => st
      end
  end.

Definition run (es : list event) (st : state) : state :=
  foldl (λ acc e, handle e acc) st es.

(** A resize timer is pending. *)
Definition resizing (st : state) : Prop :=
  ∃ h, timers st !! h = Some RemoveResizing.

End Body.

End MountEffect.

(** ** All events of the page *)

Module PageEvents.

Import Page.

Section Events.

Variable body : node.
Variable panelMap : list Panels.entry.

(** The [modal-active] effect runs again only if [isOpen] or
    [items.length] changed. *)
Definition modal_settle (before after : Lightbox.state) (d : classes)
    : classes :=
  if decide (modal_deps before = modal_deps after) then d
  else modalEffect body after d.

Inductive event :=
| OfLightbox (complete : string → bool) (e : Lightbox.event)
| OfPanels (a : Panels.action).

Definition dispatch (ev : event) (pg : page) : page :=
  match ev with
  | OfLightbox complete e =>
      let s' := Lightbox.step complete e (lightbox pg) in
      mkPage (modal_settle (lightbox pg) s' (dom pg)) s'
  | OfPanels a =>
      mkPage (Panels.fire body panelMap a (dom pg)) (lightbox pg)
  end.

(** The page after the mount effects: the [modal-active] effect ran on
    the first render and again if the scan found items. *)
Definition mounted (complete : string → bool) (doc : Gallery.document)
    (anchors : list node) (d : classes) : page :=
  let s := Lightbox.mount complete doc anchors in
  mkPage (modal_settle Lightbox.initial s (modalEffect body Lightbox.initial d)) s.

Inductive reachable (p0 : page) : page → Prop :=
| reach_start : reachable p0 p0
| reach_dispatch ev pg : reachable p0 pg → reachable p0 (dispatch ev pg).

End Events.

End PageEvents.

(** ** Invariants and event classes used in the statements *)

Module Invariants.

Import Lightbox.

(** The active index is a position of the item list, or 0 when the list
    is empty. *)
Definition in_bounds (s : state) : Prop :=
  (0 ≤ activeIndex s < Z.max 1 (count s))%Z.

(** The events that close the overlay; the Escape is one that reaches
    the listener on [window]. *)
Definition closing (e : event) : Prop :=
  e = KeyDown "Escape" ∨ e = CloserClick ∨ e = BackdropClick ∨
  e = PopupClick false.

(** The events that navigate; the keys are ones that reach the listener
    on [window]. *)
Definition navigating (e : event) : Prop :=
  e = KeyDown "ArrowRight" ∨ e = KeyDown " " ∨ e = KeyDown "ArrowLeft" ∨
  e = NextClick ∨ e = PreviousClick.

(** A thumbnail compared with how it was: either nothing the visitor
    sees has changed, or the image is hidden behind a background made
    from a non-empty source. *)
Definition settled (t0 t : Thumbs.thumb) : Prop :=
  (Thumbs.display t = Thumbs.display t0 ∧
   Thumbs.backgroundImage t = Thumbs.backgroundImage t0 ∧
   Thumbs.backgroundPosition t = Thumbs.backgroundPosition t0) ∨
  (Thumbs.display t = "none" ∧
   ∃ source, source ≠ "" ∧ Thumbs.backgroundImage t = "url(" ++ source ++ ")").

(** The pending timers of the mount effect: handles are positive and
    below the next handle, the only resize timer that can be pending is
    the one [resizeTimeout] names, and [resizeTimeout] names no other
    timer. *)
Definition timers_sound (st : MountEffect.state) : Prop :=
  0 < MountEffect.nextHandle st ∧
  MountEffect.resizeTimeout st < MountEffect.nextHandle st ∧
  (∀ h cb, MountEffect.timers st !! h = Some cb →
     0 < h < MountEffect.nextHandle st) ∧
  (∀ h, MountEffect.timers st !! h = Some MountEffect.RemoveResizing →
     h = MountEffect.resizeTimeout st) ∧
  MountEffect.timers st !! MountEffect.resizeTimeout st
    ≠ Some MountEffect.RemovePreload.

End Invariants.

(** ** Further sample values *)

Module MoreSamples.

(** An image that has loaded, and one that has not and has no source
    yet. *)
Definition loaded_image : Thumbs.image :=
  Thumbs.mkImage "" "https://example.org/one.jpg" (Some "one.jpg")
                 (Some "top left") true.

Definition pending_image : Thumbs.image :=
  Thumbs.mkImage "" "" None None false.

Definition plain_thumb : Thumbs.thumb := Thumbs.mkThumb "" "" "" [].

(** A header 50 with a link to another page (51), a panel toggle (52),
    an anchor without [href] (53) and one with an empty [href] (54). *)
Definition header_anchors (n : node) : list node :=
  if decide (n = 50) then [51; 52; 53; 54] else [].

Definition header_href (n : node) : option string :=
  match n with
  | 51 => Some "/about"
  | 52 => Some "#footer"
  | 54 => Some ""
  | _ => None
  end.

Definition modern : MountEffect.browser := MountEffect.mkBrowser false true true.

End MoreSamples.

(** * Properties *)

(** ** Class lists *)

Section ClassListFacts.

Implicit Types (d : classes) (n m : node) (c : string).

Lemma classList_add_eq d n c : classList (add d n c) n = classList d n ∪ {[c]}.
Proof. unfold classList at 1, add. by rewrite lookup_insert_eq. Qed.

Lemma classList_add_ne d n m c : n ≠ m → classList (add d n c) m = classList d m.
Proof. intros. unfold classList, add. by rewrite lookup_insert_ne. Qed.

Lemma classList_remove_eq d n c : classList (remove d n c) n = classList d n ∖ {[c]}.
Proof. unfold classList at 1, remove. by rewrite lookup_insert_eq. Qed.

Lemma classList_remove_ne d n m c : n ≠ m → classList (remove d n c) m = classList d m.
Proof. intros. unfold classList, remove. by rewrite lookup_insert_ne. Qed.

Lemma contains_true d n c : contains d n c = true ↔ c ∈ classList d n.
Proof. unfold contains. by rewrite bool_decide_eq_true. Qed.

Lemma contains_false d n c : contains d n c = false ↔ c ∉ classList d n.
Proof. unfold contains. by rewrite bool_decide_eq_false. Qed.

Lemma contains_add_same d n c : contains (add d n c) n c = true.
Proof. rewrite contains_true, classList_add_eq. set_solver. Qed.

(** Adding a class never takes a class away. *)
Lemma contains_add_mono d n c m c' :
  contains d m c' = true → contains (add d n c) m c' = true.
Proof.
  rewrite !contains_true. destruct (decide (n = m)) as [->|Hne].
  - rewrite classList_add_eq. set_solver.
  - by rewrite classList_add_ne.
Qed.

Lemma contains_add_other d n c m c' :
  n ≠ m ∨ c ≠ c' → contains (add d n c) m c' = contains d m c'.
Proof.
  intros H. unfold contains. apply bool_decide_ext.
  destruct (decide (n = m)) as [->|Hne].
  - rewrite classList_add_eq. destruct H; [done | set_solver].
  - by rewrite classList_add_ne.
Qed.

Lemma contains_remove_same d n c : contains (remove d n c) n c = false.
Proof. rewrite contains_false, classList_remove_eq. set_solver. Qed.

(** Removing a class never brings a class in. *)
Lemma contains_remove_mono d n c m c' :
  contains (remove d n c) m c' = true → contains d m c' = true.
Proof.
  rewrite !contains_true. destruct (decide (n = m)) as [->|Hne].
  - rewrite classList_remove_eq. set_solver.
  - by rewrite classList_remove_ne.
Qed.

Lemma contains_remove_other d n c m c' :
  n ≠ m ∨ c ≠ c' → contains (remove d n c) m c' = contains d m c'.
Proof.
  intros H. unfold contains. apply bool_decide_ext.
  destruct (decide (n = m)) as [->|Hne].
  - rewrite classList_remove_eq. destruct H; [done | set_solver].
  - by rewrite classList_remove_ne.
Qed.

Lemma contains_remove_absent d n c m c' :
  contains d m c' = false → contains (remove d n c) m c' = false.
Proof.
  intros H. destruct (contains (remove d n c) m c') eqn:E; [|done].
  apply contains_remove_mono in E. congruence.
Qed.

(** The loops over a list of toggles. *)

Lemma remove_each_mono (ts : list node) d c m c' :
  contains (foldl (λ acc t, remove acc t c) d ts) m c' = true →
  contains d m c' = true.
Proof.
  revert d. induction ts as [|t ts IH]; intros d; simpl; [done|].
  intros H. apply IH in H. by apply contains_remove_mono in H.
Qed.

Lemma remove_each_absent (ts : list node) d c m c' :
  contains d m c' = false →
  contains (foldl (λ acc t, remove acc t c) d ts) m c' = false.
Proof.
  intros H. destruct (contains (foldl _ d ts) m c') eqn:E; [|done].
  apply remove_each_mono in E. congruence.
Qed.

Lemma remove_each_member (ts : list node) d c t :
  t ∈ ts → contains (foldl (λ acc t, remove acc t c) d ts) t c = false.
Proof.
  revert d. induction ts as [|t' ts IH]; intros d Hin; simpl.
  - by apply elem_of_nil in Hin.
  - apply elem_of_cons in Hin as [->|Hin].
    + apply remove_each_absent, contains_remove_same.
    + by apply IH.
Qed.

Lemma remove_each_other (ts : list node) d c m c' :
  m ∉ ts ∨ c ≠ c' →
  contains (foldl (λ acc t, remove acc t c) d ts) m c' = contains d m c'.
Proof.
  revert d. induction ts as [|t ts IH]; intros d H; simpl; [done|].
  rewrite IH by set_solver. apply contains_remove_other.
  destruct H as [H|H]; [left|by right]. set_solver.
Qed.

Lemma add_each_mono (ts : list node) d c m c' :
  contains d m c' = true →
  contains (foldl (λ acc t, add acc t c) d ts) m c' = true.
Proof.
  revert d. induction ts as [|t ts IH]; intros d H; simpl; [done|].
  by apply IH, contains_add_mono.
Qed.

Lemma add_each_member (ts : list node) d c t :
  t ∈ ts → contains (foldl (λ acc t, add acc t c) d ts) t c = true.
Proof.
  revert d. induction ts as [|t' ts IH]; intros d Hin; simpl.
  - by apply elem_of_nil in Hin.
  - apply elem_of_cons in Hin as [->|Hin].
    + apply add_each_mono, contains_add_same.
    + by apply IH.
Qed.

Lemma add_each_other (ts : list node) d c m c' :
  m ∉ ts ∨ c ≠ c' →
  contains (foldl (λ acc t, add acc t c) d ts) m c' = contains d m c'.
Proof.
  revert d. induction ts as [|t ts IH]; intros d H; simpl; [done|].
  rewrite IH by set_solver. apply contains_add_other.
  destruct H as [H|H]; [left|by right]. set_solver.
Qed.

End ClassListFacts.

(** ** Panel toggler *)

Section PanelFacts.

Import Panels.

Variable body : node.
Variable panelMap : list entry.

Implicit Types (d : classes) (p q t m : node) (ts : list node) (c : string).

Local Abbreviation hidePanel := (hidePanel body).
Local Abbreviation hideAll := (hideAll body).
Local Abbreviation showPanel := (showPanel body panelMap).
Local Abbreviation togglePanel := (togglePanel body panelMap).

(** [hidePanel] only removes classes. *)
Lemma hidePanel_mono p ts d m c :
  contains (hidePanel p ts d) m c = true → contains d m c = true.
Proof.
  unfold Panels.hidePanel. intros H.
  apply contains_remove_mono, remove_each_mono, contains_remove_mono in H.
  exact H.
Qed.

Lemma hidePanel_absent p ts d m c :
  contains d m c = false → contains (hidePanel p ts d) m c = false.
Proof.
  intros H. destruct (contains (hidePanel p ts d) m c) eqn:E; [|done].
  apply hidePanel_mono in E. congruence.
Qed.

Lemma hidePanel_panel p ts d : contains (hidePanel p ts d) p "active" = false.
Proof.
  unfold Panels.hidePanel.
  apply contains_remove_absent, remove_each_absent, contains_remove_same.
Qed.

Lemma hidePanel_toggle p ts d t :
  t ∈ ts → contains (hidePanel p ts d) t "active" = false.
Proof.
  intros Hin. unfold Panels.hidePanel.
  by apply contains_remove_absent, remove_each_member.
Qed.

Lemma hidePanel_body p ts d :
  contains (hidePanel p ts d) body "content-active" = false.
Proof. unfold Panels.hidePanel. apply contains_remove_same. Qed.

(** [hidePanel] leaves the [active] flag of every other element alone. *)
Lemma hidePanel_other p ts d m :
  m ≠ p → m ∉ ts →
  contains (hidePanel p ts d) m "active" = contains d m "active".
Proof.
  intros Hp Hts. unfold Panels.hidePanel.
  rewrite contains_remove_other by (right; discriminate).
  rewrite remove_each_other by (by left).
  apply contains_remove_other. left. congruence.
Qed.

(** The loop over the entries, stated for any list of entries. *)

Lemma hide_entries_mono (l : list entry) d m c :
  contains (foldl (λ acc e, hidePanel (panel e) (toggles e) acc) d l) m c = true →
  contains d m c = true.
Proof.
  revert d. induction l as [|e l IH]; intros d; simpl; [done|].
  intros H. by apply IH, hidePanel_mono in H.
Qed.

Lemma hide_entries_absent (l : list entry) d m c :
  contains d m c = false →
  contains (foldl (λ acc e, hidePanel (panel e) (toggles e) acc) d l) m c = false.
Proof.
  intros H. destruct (contains (foldl _ d l) m c) eqn:E; [|done].
  apply hide_entries_mono in E. congruence.
Qed.

Lemma hide_entries_panel (l : list entry) d e :
  e ∈ l →
  contains (foldl (λ acc e, hidePanel (panel e) (toggles e) acc) d l)
    (panel e) "active" = false.
Proof.
  revert d. induction l as [|e' l IH]; intros d Hin; simpl.
  - by apply elem_of_nil in Hin.
  - apply elem_of_cons in Hin as [->|Hin].
    + apply hide_entries_absent, hidePanel_panel.
    + by apply IH.
Qed.

Lemma hide_entries_toggle (l : list entry) d e t :
  e ∈ l → t ∈ toggles e →
  contains (foldl (λ acc e, hidePanel (panel e) (toggles e) acc) d l)
    t "active" = false.
Proof.
  revert d. induction l as [|e' l IH]; intros d Hin Ht; simpl.
  - by apply elem_of_nil in Hin.
  - apply elem_of_cons in Hin as [->|Hin].
    + by apply hide_entries_absent, hidePanel_toggle.
    + by apply IH.
Qed.

Lemma hide_entries_body (l : list entry) d :
  l ≠ [] →
  contains (foldl (λ acc e, hidePanel (panel e) (toggles e) acc) d l)
    body "content-active" = false.
Proof.
  destruct l as [|e l]; [done|]. intros _. simpl.
  apply hide_entries_absent, hidePanel_body.
Qed.

Lemma hideAll_mono d m c :
  contains (hideAll panelMap d) m c = true → contains d m c = true.
Proof. apply hide_entries_mono. Qed.

(** After the loop no panel of the map is active. *)
Lemma hideAll_no_panel d : no_panel_active panelMap (hideAll panelMap d).
Proof.
  intros p (e & Hin & <-). unfold active.
  unfold Panels.hideAll. by rewrite hide_entries_panel.
Qed.

Lemma hideAll_toggle d e t :
  e ∈ panelMap → t ∈ toggles e →
  contains (hideAll panelMap d) t "active" = false.
Proof. apply hide_entries_toggle. Qed.

(** [showPanel] marks the panel, its toggles and the body. *)

Lemma showPanel_panel p ts d : contains (showPanel p ts d) p "active" = true.
Proof.
  unfold Panels.showPanel.
  apply contains_add_mono, add_each_mono, contains_add_same.
Qed.

Lemma showPanel_toggle p ts d t :
  t ∈ ts → contains (showPanel p ts d) t "active" = true.
Proof.
  intros Hin. unfold Panels.showPanel.
  by apply contains_add_mono, add_each_member.
Qed.

Lemma showPanel_body p ts d :
  contains (showPanel p ts d) body "content-active" = true.
Proof. unfold Panels.showPanel. apply contains_add_same. Qed.

(** Every panel that is neither the shown one nor one of its toggles is
    inactive afterwards. *)
Lemma showPanel_other p ts d q :
  is_panel panelMap q → q ≠ p → q ∉ ts →
  contains (showPanel p ts d) q "active" = false.
Proof.
  intros Hq Hp Hts. unfold Panels.showPanel.
  rewrite contains_add_other by (right; discriminate).
  rewrite add_each_other by (by left).
  rewrite contains_add_other by (left; congruence).
  destruct (contains (hideAll panelMap d) q "active") eqn:E; [|done].
  by apply hideAll_no_panel in E.
Qed.

(** *** The invariant *)

Lemma at_most_one_mono d d' :
  (∀ p, is_panel panelMap p → active d' p → active d p) →
  at_most_one_active panelMap d → at_most_one_active panelMap d'.
Proof. intros Hsub Hd p q Hp Hq Ap Aq. apply Hd; auto. Qed.

Lemma no_panel_at_most_one d :
  no_panel_active panelMap d → at_most_one_active panelMap d.
Proof. intros H p q Hp _ Ap _. by apply H in Ap. Qed.

Lemma showPanel_at_most_one e d :
  toggles_apart panelMap → e ∈ panelMap →
  at_most_one_active panelMap (showPanel (panel e) (toggles e) d).
Proof.
  intros Hwf He p q Hp Hq Ap Aq. unfold active in *.
  destruct (decide (p = panel e)) as [->|Np];
    destruct (decide (q = panel e)) as [->|Nq]; try done.
  - rewrite showPanel_other in Aq; [done..|].
    intros Hin. by apply (Hwf e q).
  - rewrite showPanel_other in Ap; [done..|].
    intros Hin. by apply (Hwf e p).
  - rewrite showPanel_other in Ap; [done..|].
    intros Hin. by apply (Hwf e p).
Qed.

Lemma fire_at_most_one a d :
  toggles_apart panelMap →
  at_most_one_active panelMap d →
  at_most_one_active panelMap (fire body panelMap a d).
Proof.
  intros Hwf Hd. destruct a as [k|k j|k| |k]; simpl.
  - by destruct (panelMap !! k).
  - destruct (panelMap !! k) as [e|] eqn:Ek; [|done].
    destruct (toggles e !! j); [|done]. simpl.
    unfold Panels.togglePanel. destruct (contains d (panel e) "active").
    + eapply at_most_one_mono; [|exact Hd]. intros p _. apply hidePanel_mono.
    + apply showPanel_at_most_one; [done|]. by eapply list_elem_of_lookup_2.
  - destruct (panelMap !! k) as [e|]; [|done].
    destruct (closer e); [|done]. simpl.
    eapply at_most_one_mono; [|exact Hd]. intros p _. apply hidePanel_mono.
  - unfold onBodyClick. destruct (contains d body "content-active"); [|done].
    simpl. apply no_panel_at_most_one, hideAll_no_panel.
  - unfold onKeyUp. simpl.
    destruct ((k =? "Escape")%string && contains d body "content-active"); [|done].
    simpl. apply no_panel_at_most_one, hideAll_no_panel.
Qed.

Lemma reachable_at_most_one d0 d :
  toggles_apart panelMap →
  at_most_one_active panelMap d0 →
  reachable body panelMap d0 d →
  at_most_one_active panelMap d.
Proof.
  intros Hwf H0 Hr. induction Hr as [|a d _ IH]; [done|].
  by apply fire_at_most_one.
Qed.

End PanelFacts.

(** ** Claims about the panel toggler *)

Section PanelClaims.

Import Panels.

Lemma sample_toggles_apart : toggles_apart Samples.panels.
Proof.
  intros e t He Ht (e' & He' & Heq). unfold Samples.panels in *.
  rewrite !elem_of_cons, elem_of_nil in He, He'.
  destruct He as [->|[->|[]]], He' as [->|[->|[]]]; simpl in *;
    rewrite elem_of_cons, elem_of_nil in Ht; destruct Ht as [->|[]]; discriminate.
Qed.

Lemma empty_at_most_one (pm : list entry) : at_most_one_active pm ∅.
Proof. intros p q _ _ Hp _. unfold active, contains, classList in Hp. by rewrite lookup_empty in Hp. Qed.

(** C2. From a page in which at most one panel is active, every listener
    invocation leads to a page in which at most one panel is active;
    activating a panel first leaves no panel of the map active, then marks
    the panel, so that afterwards it is active and every other panel is
    not. Toggles are assumed not to be panels themselves. *)
Theorem panels_at_most_one_active
    (body : node) (panelMap : list entry) (d0 d : classes) :
  toggles_apart panelMap →
  at_most_one_active panelMap d0 →
  reachable body panelMap d0 d →
  at_most_one_active panelMap d ∧
  (∀ a, at_most_one_active panelMap (fire body panelMap a d)) ∧
  (∀ e, e ∈ panelMap →
     no_panel_active panelMap (hideAll body panelMap d) ∧
     active (showPanel body panelMap (panel e) (toggles e) d) (panel e) ∧
     (∀ q, is_panel panelMap q → q ≠ panel e →
        ¬ active (showPanel body panelMap (panel e) (toggles e) d) q)).
Proof.
  intros Hwf H0 Hr.
  assert (Hd : at_most_one_active panelMap d) by by eapply reachable_at_most_one.
  split; [done|]. split.
  - intros a. by apply fire_at_most_one.
  - intros e He. split; [apply hideAll_no_panel|]. split.
    + apply showPanel_panel.
    + intros q Hq Hne. unfold active.
      rewrite showPanel_other; [done..|].
      intros Hin. by apply (Hwf e q).
Qed.

Lemma panels_at_most_one_active_witness :
  toggles_apart Samples.panels ∧
  at_most_one_active Samples.panels ∅ ∧
  reachable Samples.body Samples.panels ∅ Samples.second_open ∧
  at_most_one_active Samples.panels Samples.second_open ∧
  ¬ active (showPanel Samples.body Samples.panels 1 [3] Samples.second_open) 2.
Proof.
  pose (Hreach := reach_fire Samples.body Samples.panels ∅ (ToggleClick 1 0) ∅
                    (reach_init _ _ _)).
  split; [exact sample_toggles_apart|].
  split; [exact (empty_at_most_one Samples.panels)|].
  split; [exact Hreach|].
  destruct (panels_at_most_one_active Samples.body Samples.panels ∅
              Samples.second_open sample_toggles_apart
              (empty_at_most_one Samples.panels) Hreach)
    as (H1 & _ & H3).
  split; [exact H1|].
  destruct (H3 (mkEntry 1 [3] (Some 10))) as (_ & _ & H4).
  - apply list_elem_of_here.
  - apply H4; [|discriminate].
    exists (mkEntry 2 [4] None). split; [|reflexivity].
    apply list_elem_of_further, list_elem_of_here.
Defined.

(** C5. The listener of a toggle prevents the default action, stops the
    propagation and flips the panel of its entry. If the panel is
    inactive, the loop first leaves no panel and no toggle of the map
    active and the body unmarked; then the panel and each of its toggles
    are marked [active] and the body [content-active], every other panel
    staying inactive. If the panel is active, it and its toggles are
    unmarked, and so is the body. *)
Theorem toggle_click_flips_panel
    (body : node) (panelMap : list entry) (k j : nat) (e : entry) (t : node)
    (ev : Event) (d : classes) :
  panelMap !! k = Some e →
  toggles e !! j = Some t →
  let d' := fire body panelMap (ToggleClick k j) d in
  onToggleClick body panelMap (panel e) (toggles e) ev d
    = (stopPropagation (preventDefault ev), d') ∧
  if contains d (panel e) "active"
  then
    d' = hidePanel body (panel e) (toggles e) d ∧
    ¬ active d' (panel e) ∧
    (∀ u, u ∈ toggles e → ¬ active d' u) ∧
    ¬ content_active body d'
  else
    let mid := hideAll body panelMap d in
    no_panel_active panelMap mid ∧
    (∀ e' u, e' ∈ panelMap → u ∈ toggles e' → ¬ active mid u) ∧
    ¬ content_active body mid ∧
    d' = add (foldl (λ acc u, add acc u "active")
                (add mid (panel e) "active") (toggles e))
           body "content-active" ∧
    active d' (panel e) ∧
    (∀ u, u ∈ toggles e → active d' u) ∧
    content_active body d' ∧
    (∀ q, is_panel panelMap q → q ≠ panel e → q ∉ toggles e → ¬ active d' q).
Proof.
  intros Hk Hj d'. subst d'. simpl. rewrite Hk, Hj. simpl.
  split; [done|]. unfold togglePanel.
  assert (He : e ∈ panelMap) by by eapply list_elem_of_lookup_2.
  destruct (contains d (panel e) "active") eqn:Hact.
  - split; [done|]. unfold active, content_active.
    rewrite hidePanel_panel, hidePanel_body.
    split; [done|]. split; [|done].
    intros u Hu. by rewrite hidePanel_toggle.
  - cbv zeta. split; [apply hideAll_no_panel|].
    split. { intros e' u He' Hu. unfold active. by erewrite hideAll_toggle. }
    split. { unfold content_active, hideAll. rewrite hide_entries_body; [done|].
             intros ->. by apply elem_of_nil in He. }
    split; [done|]. unfold active, content_active.
    rewrite showPanel_panel, showPanel_body.
    split; [done|]. split. { intros u Hu. by apply showPanel_toggle. }
    split; [done|]. intros q Hq Hne Hnin. by rewrite showPanel_other.
Qed.

Lemma toggle_click_flips_panel_witness :
  Samples.panels !! 1 = Some (mkEntry 2 [4] None) ∧
  [4] !! 0 = Some 4 ∧
  active Samples.second_open 2 ∧
  active Samples.second_open 4 ∧
  content_active Samples.body Samples.second_open ∧
  ¬ active Samples.second_open 1.
Proof.
  split; [reflexivity|]. split; [reflexivity|].
  destruct (toggle_click_flips_panel Samples.body Samples.panels 1 0
              (mkEntry 2 [4] None) 4 fresh_event ∅ eq_refl eq_refl)
    as (_ & H).
  change (contains ∅ (panel (mkEntry 2 [4] None)) "active") with false in H.
  cbv zeta in H. destruct H as (_ & _ & _ & _ & Hp & Ht & Hb & Ho).
  split; [exact Hp|]. split; [apply Ht, list_elem_of_here|].
  split; [exact Hb|]. apply Ho.
  - exists (mkEntry 1 [3] (Some 10)). split; [apply list_elem_of_here|reflexivity].
  - discriminate.
  - simpl. rewrite elem_of_cons, elem_of_nil. intros [H|[]]. discriminate H.
Defined.

(** C8. When the body lacks [content-active], the click listener of the
    body returns the event as it came (default not prevented, propagation
    not stopped) and leaves every class list as it was. *)
Theorem body_click_without_marker_is_noop
    (body : node) (panelMap : list entry) (ev : Event) (d : classes) :
  contains d body "content-active" = false →
  onBodyClick body panelMap ev d = (ev, d) ∧
  defaultPrevented (fst (onBodyClick body panelMap fresh_event d)) = false ∧
  propagationStopped (fst (onBodyClick body panelMap fresh_event d)) = false ∧
  fire body panelMap BodyClick d = d ∧
  (∀ n c, contains (fire body panelMap BodyClick d) n c = contains d n c).
Proof.
  intros H. simpl. unfold onBodyClick. rewrite H. simpl. done.
Qed.

Lemma body_click_without_marker_is_noop_witness :
  contains ∅ Samples.body "content-active" = false ∧
  onBodyClick Samples.body Samples.panels fresh_event ∅ = (fresh_event, ∅).
Proof.
  assert (H : contains ∅ Samples.body "content-active" = false) by reflexivity.
  split; [exact H|].
  apply (body_click_without_marker_is_noop Samples.body Samples.panels
           fresh_event ∅ H).
Defined.

End PanelClaims.

(** ** Lightbox *)

Section LightboxFacts.

Import Gallery Lightbox.

Implicit Types (s : state) (e : event) (complete : string → bool).

Lemma preloadEffect_frame complete s :
  items (preloadEffect complete s) = items s ∧
  isOpen (preloadEffect complete s) = isOpen s ∧
  activeIndex (preloadEffect complete s) = activeIndex s.
Proof.
  unfold preloadEffect. destruct (activeHref s) as [src|]; [|done].
  destruct (negb (isOpen s) || (src =? "")%string); [done|].
  by destruct (complete src).
Qed.

Lemma settle_frame complete s s' :
  items (settle complete s s') = items s' ∧
  isOpen (settle complete s s') = isOpen s' ∧
  activeIndex (settle complete s s') = activeIndex s'.
Proof.
  unfold settle. destruct (decide (deps s = deps s')); [done|].
  apply preloadEffect_frame.
Qed.

Lemma settle_activeIndex complete s s' :
  activeIndex (settle complete s s') = activeIndex s'.
Proof. apply settle_frame. Qed.

Lemma settle_isOpen complete s s' : isOpen (settle complete s s') = isOpen s'.
Proof. apply settle_frame. Qed.

Lemma settle_items complete s s' : items (settle complete s s') = items s'.
Proof. apply settle_frame. Qed.

Lemma settle_count complete s s' : count (settle complete s s') = count s'.
Proof. unfold count. by rewrite settle_items. Qed.

Lemma settle_activeHref complete s s' :
  activeHref (settle complete s s') = activeHref s'.
Proof.
  unfold activeHref, activeItem. by rewrite settle_items, settle_activeIndex.
Qed.

Lemma settle_deps complete s s' : deps (settle complete s s') = deps s'.
Proof. unfold deps. by rewrite settle_isOpen, settle_activeHref. Qed.

(** No listener changes the item list or the attached preload image. *)
Lemma onKeyDown_frame (ev : KeyboardEvent) s :
  items (snd (onKeyDown ev s)) = items s ∧
  preview (snd (onKeyDown ev s)) = preview s.
Proof.
  unfold onKeyDown. destruct (negb (isOpen s)); [done|].
  destruct (count s =? 0)%Z; [done|].
  destruct (key ev =? "Escape")%string,
    ((key ev =? "ArrowRight")%string || (key ev =? " ")%string),
    (key ev =? "ArrowLeft")%string; done.
Qed.

Lemma handle_frame e s :
  items (handle e s) = items s ∧ preview (handle e s) = preview s.
Proof.
  destruct e; simpl; try apply onKeyDown_frame;
    try (destruct (rendered s); done).
  - by destruct (bool_decide _).
  - destruct (rendered s); [|done]. by destruct interactive.
  - by destruct (preview s) eqn:E.
  - by destruct (preview s) eqn:E.
Qed.

Lemma step_items complete e s : items (step complete e s) = items s.
Proof. unfold step. rewrite settle_items. apply handle_frame. Qed.

Lemma step_count complete e s : count (step complete e s) = count s.
Proof. unfold count. by rewrite step_items. Qed.

(** An index inside the list selects an item. *)
Lemma item_at_in_range (l : list GalleryItem) (i : Z) :
  (0 ≤ i < Z.of_nat (length l))%Z → is_Some (item_at l i).
Proof.
  intros [H0 H1]. unfold item_at.
  destruct (Z.ltb_spec i 0); [lia|]. apply lookup_lt_is_Some. lia.
Qed.

Lemma rendered_in_range s :
  isOpen s = true → (0 ≤ activeIndex s < count s)%Z → rendered s = true.
Proof.
  intros Ho Hi. unfold rendered. rewrite Ho. simpl.
  apply bool_decide_eq_true. by apply item_at_in_range.
Qed.

(** [%] agrees with the mathematical modulo on the indices that occur. *)
Lemma next_index_mod (n i : Z) :
  (0 ≤ i < n)%Z → next_index n i = ((i + 1) mod n)%Z.
Proof. intros H. unfold next_index. apply Z.rem_mod_nonneg; lia. Qed.

Lemma previous_index_mod (n i : Z) :
  (0 ≤ i < n)%Z → previous_index n i = ((i - 1 + n) mod n)%Z.
Proof. intros H. unfold previous_index. apply Z.rem_mod_nonneg; lia. Qed.

(** What the [keydown] listener does for the navigation keys while the
    overlay is open over a non-empty list. *)
Lemma onKeyDown_right (k : string) (f : Event) s :
  k = "ArrowRight" ∨ k = " " →
  isOpen s = true → count s ≠ 0%Z →
  onKeyDown (mkKey k f) s
  = (mkKey k (preventDefault f),
     setIsLoading true (setActiveIndex (next_index (count s)) s)).
Proof.
  intros Hk Ho Hn. unfold onKeyDown. rewrite Ho. simpl.
  destruct (Z.eqb_spec (count s) 0); [done|].
  by destruct Hk as [-> | ->].
Qed.

Lemma onKeyDown_left (f : Event) s :
  isOpen s = true → count s ≠ 0%Z →
  onKeyDown (mkKey "ArrowLeft" f) s
  = (mkKey "ArrowLeft" (preventDefault f),
     setIsLoading true (setActiveIndex (previous_index (count s)) s)).
Proof.
  intros Ho Hn. unfold onKeyDown. rewrite Ho. simpl.
  by destruct (Z.eqb_spec (count s) 0).
Qed.

Lemma onKeyDown_escape (f : Event) s :
  isOpen s = true → count s ≠ 0%Z →
  onKeyDown (mkKey "Escape" f) s
  = (mkKey "Escape" (preventDefault f), setIsOpen false s).
Proof.
  intros Ho Hn. unfold onKeyDown. rewrite Ho. simpl.
  by destruct (Z.eqb_spec (count s) 0).
Qed.

(** A [keydown] stopped by the popup changes nothing. *)
Lemma step_popup_keydown complete (k : string) s :
  step complete (PopupKeyDown k) s = s.
Proof.
  assert (H : handle (PopupKeyDown k) s = s)
    by (simpl; by destruct (rendered s)).
  unfold step, settle. rewrite H. by rewrite decide_True.
Qed.

Lemma run_popup_keydown complete (k : string) (n : nat) s :
  run complete (replicate n (PopupKeyDown k)) s = s.
Proof.
  induction n as [|n IH]; [done|].
  change (run complete (replicate (S n) (PopupKeyDown k)) s)
    with (run complete (replicate n (PopupKeyDown k))
            (step complete (PopupKeyDown k) s)).
  by rewrite step_popup_keydown.
Qed.

End LightboxFacts.

(** ** Claims about navigation *)

Section NavigationClaims.

Import Gallery Lightbox.

Lemma step_right complete s :
  isOpen s = true → count s ≠ 0%Z →
  isOpen (step complete (KeyDown "ArrowRight") s) = true ∧
  activeIndex (step complete (KeyDown "ArrowRight") s)
    = next_index (count s) (activeIndex s).
Proof.
  intros Ho Hn. unfold step. rewrite settle_isOpen, settle_activeIndex.
  simpl. by rewrite onKeyDown_right by auto.
Qed.

Lemma step_anchor complete (i : nat) s :
  i < length (items s) →
  isOpen (step complete (AnchorClick i) s) = true ∧
  activeIndex (step complete (AnchorClick i) s) = Z.of_nat i.
Proof.
  intros Hi. unfold step. rewrite settle_isOpen, settle_activeIndex.
  simpl. by rewrite bool_decide_eq_true_2.
Qed.

Lemma mount_items complete doc anchors :
  items (mount complete doc anchors) = getGalleryItems doc anchors.
Proof. unfold mount. by rewrite settle_items. Qed.

(** C1, as stated, fails: with three items and the overlay open at
    index 0, an ArrowRight whose target lies inside the popup (a control
    of the popup has the focus) is stopped by the popup and leaves the
    index at 0, not at [(0 + 1) mod 3]. *)
Lemma arrow_inside_popup_counterexample :
  let s := step Samples.all_cached (AnchorClick 0) Samples.mounted in
  isOpen s = true ∧ count s = 3%Z ∧ activeIndex s = 0%Z ∧
  activeIndex (step Samples.all_cached (PopupKeyDown "ArrowRight") s) = 0%Z ∧
  activeIndex (step Samples.all_cached (PopupKeyDown "ArrowRight") s)
    ≠ ((0 + 1) mod 3)%Z.
Proof. repeat split; try reflexivity. discriminate. Qed.

(** C1, amended. With [n ≥ 1] items and the overlay open at index [i],
    [0 ≤ i < n], the next control and an ArrowRight that reaches the
    listener on [window] move to [(i + 1) mod n], the previous control
    and an ArrowLeft that reaches it to [(i - 1 + n) mod n]; a key whose
    target lies inside the popup is stopped there and changes nothing.
    On a page with three thumbnails, opening the first and pressing
    ArrowRight twice (the focus not being inside the popup) visits the
    indices 0, 1, 2. *)
Theorem navigation_wraps_around
    (complete : string → bool) (s : state) (n i : Z) :
  count s = n → (1 ≤ n)%Z → (0 ≤ i < n)%Z →
  isOpen s = true → activeIndex s = i →
  activeIndex (step complete (KeyDown "ArrowRight") s) = ((i + 1) mod n)%Z ∧
  activeIndex (step complete NextClick s) = ((i + 1) mod n)%Z ∧
  activeIndex (step complete (KeyDown "ArrowLeft") s) = ((i - 1 + n) mod n)%Z ∧
  activeIndex (step complete PreviousClick s) = ((i - 1 + n) mod n)%Z ∧
  (∀ k, step complete (PopupKeyDown k) s = s) ∧
  (∀ doc a b c,
     index_trace complete [KeyDown "ArrowRight"; KeyDown "ArrowRight"]
       (step complete (AnchorClick 0) (mount complete doc [a; b; c]))
     = [0; 1; 2]%Z).
Proof.
  intros Hn H1 Hi Ho Hidx.
  assert (Hc : count s ≠ 0%Z) by lia.
  assert (Hr : rendered s = true) by (apply rendered_in_range; [done|lia]).
  assert (Htrace : ∀ doc a b c,
     index_trace complete [KeyDown "ArrowRight"; KeyDown "ArrowRight"]
       (step complete (AnchorClick 0) (mount complete doc [a; b; c]))
     = [0; 1; 2]%Z).
  { intros doc a b c.
    set (s0 := mount complete doc [a; b; c]).
    assert (H3 : length (items s0) = 3) by (unfold s0; by rewrite mount_items).
    destruct (step_anchor complete 0 s0) as [Ho1 Hi1]; [lia|].
    set (s1 := step complete (AnchorClick 0) s0) in *.
    assert (Hc1 : count s1 = 3%Z).
    { unfold s1. rewrite step_count. unfold count. by rewrite H3. }
    destruct (step_right complete s1) as [Ho2 Hi2]; [done|lia|].
    set (s2 := step complete (KeyDown "ArrowRight") s1) in *.
    assert (Hc2 : count s2 = 3%Z) by (unfold s2; by rewrite step_count).
    destruct (step_right complete s2) as [_ Hi3]; [done|lia|].
    change (index_trace complete [KeyDown "ArrowRight"; KeyDown "ArrowRight"] s1)
      with [activeIndex s1; activeIndex s2;
            activeIndex (step complete (KeyDown "ArrowRight") s2)].
    rewrite Hi3, Hi2, Hc2, Hc1, Hi1. reflexivity. }
  assert (Hpop : ∀ k, step complete (PopupKeyDown k) s = s)
    by (intros k; apply step_popup_keydown).
  repeat split; [| | | |exact Hpop|exact Htrace]; clear Htrace Hpop;
    unfold step; rewrite settle_activeIndex; simpl;
    rewrite ?onKeyDown_right, ?onKeyDown_left, ?Hr by auto; simpl;
    rewrite Hn, Hidx, ?next_index_mod, ?previous_index_mod by done; done.
Qed.

Lemma navigation_wraps_around_witness :
  let s := Lightbox.step Samples.none_cached (AnchorClick 2) Samples.mounted in
  count s = 3%Z ∧ isOpen s = true ∧ activeIndex s = 2%Z ∧
  activeIndex (step Samples.none_cached (KeyDown "ArrowRight") s) = 0%Z ∧
  activeIndex (step Samples.none_cached (KeyDown "ArrowLeft") s) = 1%Z.
Proof.
  intros s.
  assert (H1 : count s = 3%Z) by reflexivity.
  assert (H2 : isOpen s = true) by reflexivity.
  assert (H3 : activeIndex s = 2%Z) by reflexivity.
  destruct (navigation_wraps_around Samples.none_cached s 3 2 H1
              ltac:(lia) ltac:(lia) H2 H3) as (Hr & _ & Hl & _).
  split; [exact H1|]. split; [exact H2|]. split; [exact H3|].
  split; [exact Hr | exact Hl].
Defined.

(** C9, as stated, fails: with the overlay open at index 0 of three
    items and the loading flag down, a Space whose target lies inside the
    popup is stopped by the popup: the default action is not prevented,
    the index stays 0 and the loading flag stays down. *)
Lemma space_inside_popup_counterexample :
  let s := step Samples.all_cached (AnchorClick 0) Samples.mounted in
  isOpen s = true ∧ count s = 3%Z ∧ activeIndex s = 0%Z ∧
  isLoading s = false ∧
  defaultPrevented (flags (fst (popupKeyDown (mkKey " " fresh_event) s)))
    = false ∧
  activeIndex (step Samples.all_cached (PopupKeyDown " ") s)
    ≠ ((0 + 1) mod 3)%Z ∧
  isLoading (step Samples.all_cached (PopupKeyDown " ") s) = false.
Proof. repeat split; try reflexivity. discriminate. Qed.

(** C9, amended. While the overlay is open over a non-empty list, the
    Space key does what ArrowRight does.  When the key reaches the
    listener on [window], the default action is prevented, the index
    becomes [(i + 1) mod n] and the loading flag is set; when its target
    lies inside the popup, either key is stopped there and changes
    nothing. *)
Theorem space_acts_as_arrow_right
    (complete : string → bool) (f : Event) (s : state) (n i : Z) :
  count s = n → (1 ≤ n)%Z → (0 ≤ i < n)%Z →
  isOpen s = true → activeIndex s = i →
  let space := onKeyDown (mkKey " " f) s in
  let right := onKeyDown (mkKey "ArrowRight" f) s in
  snd space = snd right ∧
  flags (fst space) = flags (fst right) ∧
  step complete (KeyDown " ") s = step complete (KeyDown "ArrowRight") s ∧
  defaultPrevented (flags (fst space)) = true ∧
  propagationStopped (flags (fst space)) = propagationStopped f ∧
  activeIndex (snd space) = ((i + 1) mod n)%Z ∧
  isLoading (snd space) = true ∧
  isOpen (snd space) = true ∧
  step complete (PopupKeyDown " ") s
    = step complete (PopupKeyDown "ArrowRight") s ∧
  step complete (PopupKeyDown " ") s = s ∧
  popupKeyDown (mkKey " " f) s = (mkKey " " (stopPropagation f), s).
Proof.
  intros Hn H1 Hi Ho Hidx space right. subst space right.
  assert (Hc : count s ≠ 0%Z) by lia.
  rewrite !step_popup_keydown.
  unfold step. simpl.
  rewrite !onKeyDown_right by auto. simpl.
  rewrite Hn, Hidx, next_index_mod by done. done.
Qed.

Lemma space_acts_as_arrow_right_witness :
  let s := Lightbox.step Samples.none_cached (AnchorClick 2) Samples.mounted in
  count s = 3%Z ∧ isOpen s = true ∧ activeIndex s = 2%Z ∧
  activeIndex (snd (onKeyDown (mkKey " " fresh_event) s)) = 0%Z ∧
  isLoading (snd (onKeyDown (mkKey " " fresh_event) s)) = true.
Proof.
  intros s.
  assert (H1 : count s = 3%Z) by reflexivity.
  assert (H2 : isOpen s = true) by reflexivity.
  assert (H3 : activeIndex s = 2%Z) by reflexivity.
  destruct (space_acts_as_arrow_right Samples.none_cached fresh_event s 3 2 H1
              ltac:(lia) ltac:(lia) H2 H3) as (_ & _ & _ & _ & _ & Hi & Hl & _).
  split; [exact H1|]. split; [exact H2|]. split; [exact H3|].
  split; [exact Hi | exact Hl].
Defined.

End NavigationClaims.

(** ** The loading flag *)

Section LoadingFacts.

Import Gallery Lightbox.

Implicit Types (s : state) (e : event) (complete : string → bool).

(** The attached preload image is determined by the dependencies of the
    effect. *)
Lemma attached_deps s s' : deps s = deps s' → attached s = attached s'.
Proof. unfold deps, attached. intros [= -> ->]. done. Qed.

Lemma preloadEffect_preview complete s :
  preview (preloadEffect complete s) = attached s.
Proof.
  unfold preloadEffect, attached. destruct (activeHref s) as [src|]; [|done].
  destruct (negb (isOpen s) || (src =? "")%string); [done|].
  by destruct (complete src).
Qed.

Lemma preloadEffect_isLoading complete s :
  isLoading (preloadEffect complete s)
  = match attached s with
    | Some src => negb (complete src)
    | None => isLoading s
    end.
Proof.
  unfold preloadEffect, attached. destruct (activeHref s) as [src|]; [|done].
  destruct (negb (isOpen s) || (src =? "")%string); [done|].
  by destruct (complete src).
Qed.

Lemma attached_spec s src :
  attached s = Some src ↔
  isOpen s = true ∧ activeHref s = Some src ∧ src ≠ "".
Proof.
  unfold attached. destruct (activeHref s) as [x|]; [|naive_solver].
  destruct (isOpen s); simpl; [|naive_solver].
  destruct (String.eqb_spec x ""); naive_solver.
Qed.

Lemma preloadEffect_deps complete s : deps (preloadEffect complete s) = deps s.
Proof.
  destruct (preloadEffect_frame complete s) as (Hi & Ho & Hx).
  unfold deps, activeHref, activeItem. by rewrite Hi, Ho, Hx.
Qed.

Lemma preloadEffect_coherent complete s :
  preview (preloadEffect complete s) = attached (preloadEffect complete s).
Proof.
  rewrite preloadEffect_preview. apply attached_deps.
  by rewrite preloadEffect_deps.
Qed.

Lemma settle_coherent complete s s' :
  preview s = attached s → preview s' = preview s →
  preview (settle complete s s') = attached (settle complete s s').
Proof.
  intros Hs Hp. unfold settle. destruct (decide _) as [E|E].
  - by rewrite Hp, Hs, (attached_deps _ _ E).
  - apply preloadEffect_coherent.
Qed.

Lemma mount_coherent complete doc anchors :
  preview (mount complete doc anchors) = attached (mount complete doc anchors).
Proof. unfold mount. by apply settle_coherent. Qed.

Lemma step_coherent complete e s :
  preview s = attached s →
  preview (step complete e s) = attached (step complete e s).
Proof.
  intros Hs. unfold step. apply settle_coherent; [done|]. apply handle_frame.
Qed.

(** In every state of the mounted component the attached preload image is
    the one the effect chose for the current dependencies. *)
Lemma reachable_coherent s : reachable s → preview s = attached s.
Proof.
  induction 1; [apply mount_coherent | by apply step_coherent].
Qed.

(** Setting the loading flag does not touch the dependencies. *)
Lemma deps_setIsLoading v s : deps (setIsLoading v s) = deps s.
Proof. reflexivity. Qed.

(** Only the four image callbacks lower the flag. *)
Lemma onKeyDown_keeps_loading (ev : KeyboardEvent) s :
  isLoading s = true → isLoading (snd (onKeyDown ev s)) = true.
Proof.
  intros H. unfold onKeyDown. destruct (negb (isOpen s)); [done|].
  destruct (count s =? 0)%Z; [done|].
  destruct (key ev =? "Escape")%string,
    ((key ev =? "ArrowRight")%string || (key ev =? " ")%string),
    (key ev =? "ArrowLeft")%string; done.
Qed.

Lemma handle_keeps_loading e s :
  ¬ load_or_error e → isLoading s = true → isLoading (handle e s) = true.
Proof.
  intros Hne H. unfold load_or_error in Hne.
  destruct e; simpl; try (exfalso; naive_solver);
    try (destruct (rendered s); done).
  - by destruct (bool_decide _).
  - by apply onKeyDown_keeps_loading.
  - destruct (rendered s); [|done]. by destruct interactive.
Qed.

Lemma step_signal complete e s :
  load_or_error e →
  match e with
  | PreviewLoad | PreviewError => is_Some (preview s)
  | _ => rendered s = true
  end →
  step complete e s = setIsLoading false s.
Proof.
  intros [-> | [-> | [-> | ->]]] Hreg; unfold step; simpl.
  - rewrite Hreg. unfold settle, imgOnLoad.
    by rewrite decide_True by by rewrite deps_setIsLoading.
  - rewrite Hreg. unfold settle, imgOnError.
    by rewrite decide_True by by rewrite deps_setIsLoading.
  - destruct Hreg as [x ->]. unfold settle, handleComplete.
    by rewrite decide_True by by rewrite deps_setIsLoading.
  - destruct Hreg as [x ->]. unfold settle, handleComplete.
    by rewrite decide_True by by rewrite deps_setIsLoading.
Qed.

End LoadingFacts.

(** ** Claims about the loading flag *)

Section LoadingClaims.

Import Gallery Lightbox.

Lemma item_at_of_nat (l : list GalleryItem) (i : nat) :
  item_at l (Z.of_nat i) = l !! i.
Proof.
  unfold item_at. destruct (Z.ltb_spec (Z.of_nat i) 0); [lia|].
  by rewrite Nat2Z.id.
Qed.

(** What the opening click leaves behind, before and after the effect. *)
Lemma step_anchor_state complete (i : nat) (it : GalleryItem) (s : state) :
  items s !! i = Some it →
  handle (AnchorClick i) s
    = setIsOpen true (setIsLoading true (setActiveIndex (λ _, Z.of_nat i) s)) ∧
  isOpen (step complete (AnchorClick i) s) = true ∧
  activeHref (step complete (AnchorClick i) s) = Some (href it).
Proof.
  intros Hi. assert (Hlt : i < length (items s)) by by eapply lookup_lt_Some.
  assert (Hh : handle (AnchorClick i) s
    = setIsOpen true (setIsLoading true (setActiveIndex (λ _, Z.of_nat i) s))).
  { simpl. by rewrite bool_decide_eq_true_2. }
  split; [done|]. unfold step.
  rewrite settle_isOpen, settle_activeHref, Hh. split; [done|].
  unfold activeHref, activeItem. simpl. by rewrite item_at_of_nat, Hi.
Qed.

(** C3, as stated, fails: with the first image already held by the
    browser, the click that opens the overlay leaves the loading flag
    cleared although no load or error has been reported. *)
Lemma opening_clears_flag_without_signal_counterexample :
  isOpen (step Samples.all_cached (AnchorClick 0) Samples.mounted) = true ∧
  isLoading (step Samples.all_cached (AnchorClick 0) Samples.mounted) = false ∧
  ¬ load_or_error (AnchorClick 0).
Proof.
  split; [reflexivity|]. split; [reflexivity|].
  unfold load_or_error. intros [H|[H|[H|H]]]; discriminate H.
Qed.

(** C3, amended. The click listener of a thumbnail sets the loading flag
    (and opens the overlay at that thumbnail). The flag is cleared by the
    load and the error callbacks of the visible image and of the preload
    image, both alike, and besides only by the preload effect itself, at
    once, when the image it has just created already reports
    [complete]; opening a closed overlay on an item with a link target
    therefore leaves the flag set exactly when that image is not yet
    complete. *)
Theorem loading_flag_set_and_cleared (complete : string → bool) (s : state) :
  (∀ i ev,
     let s' := snd (anchorClick i ev s) in
     isLoading s' = true ∧ isOpen s' = true ∧ activeIndex s' = Z.of_nat i) ∧
  (∀ i it, isOpen s = false → items s !! i = Some it → href it ≠ "" →
     isLoading (step complete (AnchorClick i) s) = negb (complete (href it))) ∧
  (∀ e, isLoading s = true → isLoading (step complete e s) = false →
     load_or_error e ∨
     (deps s ≠ deps (handle e s) ∧
      ∃ src, isOpen (handle e s) = true ∧ activeHref (handle e s) = Some src ∧
             src ≠ "" ∧ complete src = true)) ∧
  (rendered s = true →
     isLoading (step complete ImgLoad s) = false ∧
     isLoading (step complete ImgError s) = false) ∧
  (is_Some (preview s) →
     isLoading (step complete PreviewLoad s) = false ∧
     isLoading (step complete PreviewError s) = false) ∧
  step complete ImgError s = step complete ImgLoad s ∧
  step complete PreviewError s = step complete PreviewLoad s.
Proof.
  split; [done|]. split.
  { intros i it Hclosed Hi Hne.
    destruct (step_anchor_state complete i it s Hi) as (Hh & _ & _).
    assert (Ha : attached (handle (AnchorClick i) s) = Some (href it)).
    { apply attached_spec. rewrite Hh. split; [done|]. split; [|done].
      unfold activeHref, activeItem. simpl. by rewrite item_at_of_nat, Hi. }
    unfold step, settle. rewrite decide_False.
    - by rewrite preloadEffect_isLoading, Ha.
    - rewrite Hh. unfold deps. simpl. rewrite Hclosed. congruence. }
  split.
  { intros e Hs Hcl.
    assert (Hdec : load_or_error e ∨ ¬ load_or_error e).
    { unfold load_or_error.
      destruct e; first [ left; by eauto 6
                        | right; intros [H|[H|[H|H]]]; discriminate H ]. }
    destruct Hdec as [|Hne]; [by left|]. right.
    pose proof (handle_keeps_loading e s Hne Hs) as Hk.
    unfold step, settle in Hcl. destruct (decide _) as [E|E]; [congruence|].
    split; [done|]. rewrite preloadEffect_isLoading in Hcl.
    destruct (attached (handle e s)) as [src|] eqn:Ha; [|congruence].
    apply attached_spec in Ha as (Ho & Hh & Hsrc).
    exists src. repeat split; try done. by destruct (complete src). }
  split.
  { intros Hr. rewrite !step_signal; unfold load_or_error; auto. }
  split.
  { intros Hp. rewrite !step_signal; unfold load_or_error; auto 6. }
  split; reflexivity.
Qed.

Lemma loading_flag_set_and_cleared_witness :
  isLoading (step Samples.none_cached (AnchorClick 0) Samples.mounted) = true ∧
  isLoading (step Samples.all_cached (AnchorClick 0) Samples.mounted) = false.
Proof.
  split.
  - destruct (loading_flag_set_and_cleared Samples.none_cached Samples.mounted)
      as (_ & H & _).
    apply (H 0 (mkItem "one.jpg" (Some "<h2>One</h2>"))); [reflexivity..|].
    discriminate.
  - destruct (loading_flag_set_and_cleared Samples.all_cached Samples.mounted)
      as (_ & H & _).
    apply (H 0 (mkItem "one.jpg" (Some "<h2>One</h2>"))); [reflexivity..|].
    discriminate.
Defined.

(** While the active item has the empty link target, the flag is set and
    no preload image is attached: this is kept by every event other than
    the load and error of the visible image, as long as the item stays. *)
Lemma step_keeps_waiting complete (e : event) (s : state) :
  preview s = attached s →
  activeHref s = Some "" →
  isLoading s = true →
  image_event e = false →
  activeHref (step complete e s) = Some "" →
  isLoading (step complete e s) = true.
Proof.
  intros Hco Hempty Hl He Hstay.
  assert (Hp : preview s = None).
  { rewrite Hco. unfold attached. rewrite Hempty. simpl.
    by rewrite orb_true_r. }
  assert (Hk : isLoading (handle e s) = true).
  { destruct (preview s) eqn:Hps; [done|].
    destruct e; try done; simpl; rewrite ?Hps; try done;
      try (destruct (rendered s); done).
    - by destruct (bool_decide _).
    - by apply onKeyDown_keeps_loading.
    - destruct (rendered s); [|done]. by destruct interactive. }
  unfold step in *. rewrite settle_activeHref in Hstay.
  unfold settle. destruct (decide _); [done|].
  rewrite preloadEffect_isLoading. unfold attached. rewrite Hstay. simpl.
  by rewrite orb_true_r.
Qed.

Lemma run_keeps_waiting complete (es : list event) (s : state) :
  preview s = attached s →
  isLoading s = true →
  throughout empty_target complete es s = true →
  forallb (λ e, negb (image_event e)) es = true →
  isLoading (run complete es s) = true.
Proof.
  revert s. induction es as [|e es IH]; intros s Hco Hl Ht Hev; [done|].
  simpl in Ht, Hev. apply andb_true_iff in Ht as [Hs Ht].
  apply andb_true_iff in Hev as [He Hev]. apply negb_true_iff in He.
  unfold empty_target in Hs. apply bool_decide_eq_true in Hs.
  assert (Hnext : activeHref (step complete e s) = Some "").
  { destruct es; simpl in Ht; apply andb_true_iff in Ht as [Ht _];
      by apply bool_decide_eq_true in Ht. }
  change (run complete (e :: es) s) with (run complete es (step complete e s)).
  apply IH; try done.
  - by apply step_coherent.
  - by apply step_keeps_waiting.
Qed.

(** C10. An anchor without [href] is recorded with the link target [""].
    When the overlay is opened on such an item, the preload effect
    creates no image and leaves the loading flag as the click set it; the
    flag then stays set through every sequence of events that keeps this
    item active and contains no load or error of the visible image, and
    either of these two clears it. *)
Theorem empty_link_target_waits_for_image
    (complete : string → bool) (s : state) (i : nat) (it : GalleryItem) :
  reachable s →
  items s !! i = Some it →
  href it = "" →
  let s1 := step complete (AnchorClick i) s in
  (∀ doc a, getAttribute_href doc a = None → href (item_of doc a) = "") ∧
  isOpen s1 = true ∧ activeHref s1 = Some "" ∧
  isLoading s1 = true ∧ preview s1 = None ∧
  (∀ c, preloadEffect c s1 = s1) ∧
  (∀ c es,
     throughout empty_target c es s1 = true →
     forallb (λ e, negb (image_event e)) es = true →
     isLoading (run c es s1) = true) ∧
  (∀ c, isLoading (step c ImgLoad s1) = false ∧
        isLoading (step c ImgError s1) = false).
Proof.
  intros Hr Hi Hhref s1.
  split. { intros doc a Ha. unfold item_of. simpl. by rewrite Ha. }
  destruct (step_anchor_state complete i it s Hi) as (Hh & Ho & Ha).
  fold s1 in Ho, Ha. rewrite Hhref in Ha.
  assert (Hco : preview s1 = attached s1).
  { apply reachable_coherent. by constructor. }
  assert (Hp : preview s1 = None).
  { rewrite Hco. unfold attached. rewrite Ha. simpl. by rewrite orb_true_r. }
  assert (Hl : isLoading s1 = true).
  { unfold s1, step, settle. destruct (decide _) as [E|E].
    - by rewrite Hh.
    - rewrite preloadEffect_isLoading.
      replace (attached (handle (AnchorClick i) s)) with (@None string).
      + by rewrite Hh.
      + symmetry. unfold attached.
        replace (activeHref (handle (AnchorClick i) s)) with (Some "").
        * simpl. by rewrite orb_true_r.
        * rewrite <- Ha. unfold s1, step. by rewrite settle_activeHref. }
  repeat (split; [done|]). split.
  { intros c. unfold preloadEffect. rewrite Ha, Ho. simpl.
    destruct s1 as [its o ix l p]. simpl in Hp. by rewrite Hp. }
  split. { intros c es Ht Hev. by apply run_keeps_waiting. }
  intros c.
  assert (Hrd : rendered s1 = true).
  { unfold rendered. rewrite Ho. simpl. apply bool_decide_eq_true.
    unfold activeHref in Ha. by destruct (activeItem s1). }
  rewrite !step_signal; unfold load_or_error; auto.
Qed.

Lemma empty_link_target_waits_for_image_witness :
  let s1 := step Samples.none_cached (AnchorClick 2) Samples.mounted in
  reachable Samples.mounted ∧
  items Samples.mounted !! 2 = Some (mkItem "" None) ∧
  isLoading s1 = true ∧ preview s1 = None ∧
  isLoading (run Samples.all_cached [PreviewLoad; KeyDown "Enter"; PreviewError] s1)
    = true ∧
  isLoading (step Samples.all_cached ImgError s1) = false.
Proof.
  intros s1.
  assert (Hr : reachable Samples.mounted) by constructor.
  assert (Hi : items Samples.mounted !! 2 = Some (mkItem "" None)) by reflexivity.
  destruct (empty_link_target_waits_for_image Samples.none_cached
              Samples.mounted 2 (mkItem "" None) Hr Hi eq_refl)
    as (_ & _ & _ & Hl & Hp & _ & Hrun & Himg).
  split; [exact Hr|]. split; [exact Hi|]. split; [exact Hl|].
  split; [exact Hp|]. split.
  - apply Hrun; reflexivity.
  - apply Himg.
Defined.

End LoadingClaims.

(** ** Claims about the Escape key *)

Section EscapeClaims.

Import Panels Lightbox Page.

(** The overlay is only ever open over a non-empty item list. *)
Lemma onKeyDown_open (ev : KeyboardEvent) (s : state) :
  isOpen (snd (onKeyDown ev s)) = true → isOpen s = true.
Proof.
  unfold onKeyDown. destruct (isOpen s) eqn:E; [done|]. simpl. congruence.
Qed.

Lemma handle_open (e : event) (s : state) :
  isOpen (handle e s) = true → isOpen s = true ∨ items s ≠ [].
Proof.
  destruct e; simpl; try (destruct (rendered s) eqn:Hr; simpl; auto; fail);
    try (destruct (preview s); simpl; auto; fail).
  - destruct (bool_decide _) eqn:Hb; [|auto]. intros _. right.
    apply bool_decide_eq_true in Hb. destruct (items s); simpl in *; [lia|done].
  - intros H. left. by eapply onKeyDown_open.
  - destruct (rendered s); [|auto]. destruct interactive; simpl; auto.
Qed.

Lemma reachable_open_nonempty (s : state) :
  Lightbox.reachable s → isOpen s = true → items s ≠ [].
Proof.
  induction 1 as [complete doc anchors | complete e s Hr IH].
  - unfold mount. by rewrite settle_isOpen.
  - rewrite step_items. unfold step. rewrite settle_isOpen. intros Ho.
    apply handle_open in Ho as [Ho|Ho]; auto.
Qed.

(** C4, as stated, fails, in each half.  After the second panel was
    opened and the closer of the first one clicked, the second panel is
    active but the body no longer carries [content-active], and Escape
    leaves the panel active.  With the lightbox open, an Escape whose
    target lies inside the popup is stopped by the popup and the lightbox
    stays open.  And with a panel and the lightbox both open, the Escape
    press that closes the lightbox (on [keydown]) also runs the loop that
    hides the panels (on the [keyup] that follows). *)
Lemma escape_press_counterexample :
  let opened := step Samples.none_cached (AnchorClick 0) Samples.mounted in
  (Panels.reachable Samples.body Samples.panels ∅
     Samples.second_open_first_closed ∧
   is_panel Samples.panels 2 ∧
   active Samples.second_open_first_closed 2 ∧
   active (dom (keyup Samples.body Samples.panels "Escape"
                  (mkPage Samples.second_open_first_closed Samples.mounted))) 2) ∧
  (isOpen opened = true ∧
   isOpen (lightbox (keydown Samples.body Samples.none_cached true "Escape"
                       (mkPage ∅ opened))) = true) ∧
  (let pg := mkPage Samples.second_open opened in
   let pg' := keyup Samples.body Samples.panels "Escape"
                (keydown Samples.body Samples.none_cached false "Escape" pg) in
   active (dom pg) 2 ∧ isOpen (lightbox pg') = false ∧
   contains (dom pg') 2 "active" = false).
Proof.
  intros opened. split; [|split].
  - split; [do 2 constructor; constructor|].
    split. { exists (mkEntry 2 [4] None). split; [|done].
             apply list_elem_of_further, list_elem_of_here. }
    split; reflexivity.
  - split; reflexivity.
  - repeat split; reflexivity.
Qed.

(** C4, amended. An Escape [keyup] while the body carries
    [content-active] leaves no panel and no toggle of the map active (and
    does not touch the lightbox).  An Escape [keydown] that reaches the
    listener on [window] while the lightbox is open closes it, prevents
    the default action without stopping the propagation, and changes no
    [active] or [content-active] class; an Escape [keydown] whose target
    lies inside the popup has its propagation stopped there and changes
    nothing. *)
Theorem escape_closes_panels_and_lightbox
    (body : node) (panelMap : list entry) (complete : string → bool)
    (pg : page) :
  (content_active body (dom pg) →
     let pg' := keyup body panelMap "Escape" pg in
     no_panel_active panelMap (dom pg') ∧
     (∀ e u, e ∈ panelMap → u ∈ toggles e → ¬ active (dom pg') u) ∧
     lightbox pg' = lightbox pg ∧
     fst (onKeyUp body panelMap (mkKey "Escape" fresh_event) (dom pg))
       = mkKey "Escape" (mkEvent true true)) ∧
  (Lightbox.reachable (lightbox pg) → isOpen (lightbox pg) = true →
     let pg' := keydown body complete false "Escape" pg in
     isOpen (lightbox pg') = false ∧
     (∀ n, contains (dom pg') n "active" = contains (dom pg) n "active") ∧
     contains (dom pg') body "content-active"
       = contains (dom pg) body "content-active" ∧
     fst (onKeyDown (mkKey "Escape" fresh_event) (lightbox pg))
       = mkKey "Escape" (mkEvent true false) ∧
     keydown body complete true "Escape" pg = pg ∧
     fst (popupKeyDown (mkKey "Escape" fresh_event) (lightbox pg))
       = mkKey "Escape" (mkEvent false true)).
Proof.
  split.
  - intros Hc pg'. subst pg'. unfold keyup, onKeyUp. simpl.
    unfold content_active in Hc. rewrite Hc. simpl.
    split; [apply hideAll_no_panel|]. split; [|done].
    intros e u He Hu. unfold active. by erewrite hideAll_toggle.
  - intros Hr Ho pg'. subst pg'.
    assert (Hn : count (lightbox pg) ≠ 0%Z).
    { pose proof (reachable_open_nonempty _ Hr Ho) as Hne. unfold count.
      destruct (items (lightbox pg)); simpl; [done|lia]. }
    assert (Hs : isOpen (step complete (KeyDown "Escape") (lightbox pg)) = false).
    { unfold step. rewrite settle_isOpen. simpl. by rewrite onKeyDown_escape. }
    assert (Hin : keydown body complete true "Escape" pg = pg).
    { unfold keydown. simpl. rewrite step_popup_keydown.
      rewrite decide_True by done. by destruct pg. }
    unfold keydown at 1 2 3. simpl. split; [done|].
    rewrite onKeyDown_escape by done.
    rewrite decide_False.
    2:{ unfold modal_deps. rewrite Hs, Ho. congruence. }
    unfold modalEffect. rewrite Hs.
    split. { intros n. apply contains_remove_other. right. discriminate. }
    split. { apply contains_remove_other. right. discriminate. }
    split; [done|]. split; [exact Hin|done].
Qed.

Lemma escape_closes_panels_and_lightbox_witness :
  let opened := step Samples.none_cached (AnchorClick 0) Samples.mounted in
  let pg := mkPage Samples.second_open opened in
  content_active Samples.body (dom pg) ∧
  Lightbox.reachable (lightbox pg) ∧
  isOpen (lightbox pg) = true ∧
  no_panel_active Samples.panels
    (dom (keyup Samples.body Samples.panels "Escape" pg)) ∧
  isOpen (lightbox (keydown Samples.body Samples.none_cached false "Escape" pg))
    = false ∧
  contains (dom (keydown Samples.body Samples.none_cached false "Escape" pg))
    2 "active" = contains (dom pg) 2 "active" ∧
  keydown Samples.body Samples.none_cached true "Escape" pg = pg.
Proof.
  intros opened pg.
  assert (Hc : content_active Samples.body (dom pg)) by reflexivity.
  assert (Hr : Lightbox.reachable (lightbox pg)) by (do 2 constructor).
  assert (Ho : isOpen (lightbox pg) = true) by reflexivity.
  destruct (escape_closes_panels_and_lightbox Samples.body Samples.panels
              Samples.none_cached pg) as (Hup & Hdown).
  destruct (Hup Hc) as (Hnone & _).
  destruct (Hdown Hr Ho) as (Hclosed & Hsame & _ & _ & Hin & _).
  split; [exact Hc|]. split; [exact Hr|]. split; [exact Ho|].
  split; [exact Hnone|]. split; [exact Hclosed|].
  split; [apply Hsame | exact Hin].
Defined.

End EscapeClaims.

(** ** Claims about the footer *)

Section FooterClaims.

Import Footer.

Lemma appendChild_resides (target c : node) (d : tree) :
  resides (appendChild target c d) c target.
Proof.
  unfold resides, parentElement, children, appendChild. simpl.
  rewrite !lookup_insert_eq. simpl. split; [done|].
  apply elem_of_app. right. apply list_elem_of_here.
Qed.

Lemma updateLocation_resides (l : located) (width : Z) (d : tree) :
  resides (updateLocation l (max_width_980 width) d) (copyright l)
    (target_of l width).
Proof.
  unfold updateLocation, target_of.
  destruct (max_width_980 width); apply appendChild_resides.
Qed.

Lemma after_changes_resides (l : located) (widths : list Z) (width : Z)
    (d : tree) :
  resides d (copyright l) (target_of l width) →
  resides (after_changes (Some l) widths d) (copyright l)
    (target_of l (default width (last widths))).
Proof.
  revert width d. induction widths as [|w ws IH]; intros width d Hd; [done|].
  change (after_changes (Some l) (w :: ws) d)
    with (after_changes (Some l) ws (updateLocation l (max_width_980 w) d)).
  replace (default width (last (w :: ws))) with (default w (last ws)).
  - apply IH, updateLocation_resides.
  - rewrite last_cons. by destruct (last ws).
Qed.

Lemma locate_parent footer query (d : tree) (l : located) :
  locate footer query d = Some l →
  parentElement d (copyright l) = Some (parent l).
Proof.
  unfold locate. intros H.
  destruct (footer ≫= query) as [c|]; simpl in H; [|done].
  destruct (parentElement d c) as [p|] eqn:Hp; simpl in H; [|done].
  destruct (parentElement d p ≫= lastElementChild d) as [lp|]; simpl in H; [|done].
  by injection H as <-.
Qed.

(** C6. Once the routine has found the copyright block, its container
    and the last child of that container's parent, then after setup and
    after every further change event the block sits in the narrow-layout
    container if the viewport is at most 980 pixels wide and in its
    original container otherwise; for two distinct containers, it sits in
    the narrow-layout one exactly when the width is at most 980. *)
Theorem copyright_follows_media_query
    (footer : option node) (query : node → option node)
    (width : Z) (widths : list Z) (d d1 : tree) (l : located) :
  setupFooterCopyright footer query width d = (Some l, d1) →
  let final := after_changes (Some l) widths d1 in
  let w := default width (last widths) in
  parentElement d (copyright l) = Some (parent l) ∧
  (max_width_980 w = true ↔ (w ≤ 980)%Z) ∧
  resides final (copyright l)
    (if max_width_980 w then lastParent l else parent l) ∧
  (parent l ≠ lastParent l →
     (resides final (copyright l) (lastParent l) ↔ (w ≤ 980)%Z) ∧
     (resides final (copyright l) (parent l) ↔ ¬ (w ≤ 980)%Z)).
Proof.
  intros Hsetup final w. unfold setupFooterCopyright in Hsetup.
  destruct (locate footer query d) as [l'|] eqn:Hloc; [|done].
  injection Hsetup as -> <-.
  assert (Hres : resides final (copyright l) (target_of l w)).
  { apply after_changes_resides, updateLocation_resides. }
  assert (Hw : max_width_980 w = true ↔ (w ≤ 980)%Z).
  { unfold max_width_980. apply Z.leb_le. }
  split; [by eapply locate_parent|]. split; [done|]. split; [done|].
  intros Hne. unfold target_of in Hres.
  destruct (max_width_980 w) eqn:Hm.
  - assert (w ≤ 980)%Z by by apply Hw. split; split; try done.
    intros [Hp _]. destruct Hres as [Hq _]. congruence.
  - assert (¬ (w ≤ 980)%Z) by (rewrite <- Hw; congruence).
    split; split; try done.
    intros [Hp _]. destruct Hres as [Hq _]. congruence.
Qed.

Lemma copyright_follows_media_query_witness :
  let setup := setupFooterCopyright (Some 40) Samples.footer_query 1200
                 Samples.footer_tree in
  setup = (Some Samples.footer_located, snd setup) ∧
  resides (snd setup) 44 42 ∧
  resides (after_changes (Some Samples.footer_located) [800%Z] (snd setup)) 44 43 ∧
  resides (after_changes (Some Samples.footer_located) [800%Z; 981%Z] (snd setup))
    44 42.
Proof.
  intros setup.
  assert (Hs : setup = (Some Samples.footer_located, snd setup)) by reflexivity.
  split; [exact Hs|].
  assert (Hne : parent Samples.footer_located ≠ lastParent Samples.footer_located)
    by discriminate.
  split; [|split].
  - destruct (copyright_follows_media_query (Some 40) Samples.footer_query
                1200 [] Samples.footer_tree (snd setup) Samples.footer_located Hs)
      as (_ & _ & _ & H).
    apply (H Hne). simpl. lia.
  - destruct (copyright_follows_media_query (Some 40) Samples.footer_query
                1200 [800%Z] Samples.footer_tree (snd setup)
                Samples.footer_located Hs) as (_ & _ & _ & H).
    apply (H Hne). simpl. lia.
  - destruct (copyright_follows_media_query (Some 40) Samples.footer_query
                1200 [800%Z; 981%Z] Samples.footer_tree (snd setup)
                Samples.footer_located Hs) as (_ & _ & _ & H).
    apply (H Hne). simpl. lia.
Defined.

End FooterClaims.

(** ** Claims about the gallery scan *)

Section GalleryClaims.

Import Gallery.

Lemma append_empty_r (x : string) : x ++ "" = x.
Proof.
  induction x as [|a x IH]; [done|].
  change (String a (x ++ "") = String a x). by rewrite IH.
Qed.

(** Joining with the empty separator writes the strings one after the
    other. *)
Lemma join_markup (doc : document) (l : list node) :
  join (map (outerHTML doc) l) = markup doc l.
Proof.
  unfold join. induction l as [|n l IH]; [done|].
  destruct l as [|m l].
  - change (markup doc [n]) with (outerHTML doc n ++ "").
    by rewrite append_empty_r.
  - change (String.concat "" (map (outerHTML doc) (n :: m :: l)))
      with (outerHTML doc n ++ "" ++ String.concat "" (map (outerHTML doc) (m :: l))).
    by rewrite IH.
Qed.

(** C7. The scan returns one item per anchor, in the order of the
    anchors; the item of an anchor carries the anchor's [href] ([""] when
    the attribute is missing) and, as caption, the markup of the anchor's
    element siblings, the anchor itself left out, written one after the
    other; the caption is absent when that markup is empty. *)
Theorem gallery_items_follow_anchors
    (doc : document) (anchors : list node) (i : nat) (a : node) :
  anchors !! i = Some a →
  length (getGalleryItems doc anchors) = length anchors ∧
  ∃ it, getGalleryItems doc anchors !! i = Some it ∧
    href it = default "" (getAttribute_href doc a) ∧
    (∀ h, getAttribute_href doc a = Some h → href it = h) ∧
    (markup doc (siblings_of doc a) = "" → caption it = None) ∧
    (markup doc (siblings_of doc a) ≠ "" →
       caption it = Some (markup doc (siblings_of doc a))).
Proof.
  intros Ha. unfold getGalleryItems. split; [apply length_map|].
  exists (item_of doc a). rewrite list_lookup_fmap, Ha. split; [done|].
  split; [done|]. split. { intros h Hh. simpl. by rewrite Hh. }
  assert (Hc : caption (item_of doc a)
               = or_undefined (markup doc (siblings_of doc a))).
  { unfold item_of, siblings_of. simpl. rewrite join_markup.
    by destruct (parentElement doc a). }
  rewrite Hc. unfold or_undefined.
  destruct (String.eqb_spec (markup doc (siblings_of doc a)) ""); split; done.
Qed.

Lemma gallery_items_follow_anchors_witness :
  Samples.anchors !! 0 = Some 11 ∧
  getGalleryItems Samples.doc Samples.anchors
    = [mkItem "one.jpg" (Some "<h2>One</h2>");
       mkItem "two.jpg" (Some "<h2>Two</h2>");
       mkItem "" None] ∧
  ∃ it, getGalleryItems Samples.doc Samples.anchors !! 0 = Some it ∧
        caption it = Some "<h2>One</h2>".
Proof.
  split; [reflexivity|]. split; [reflexivity|].
  destruct (gallery_items_follow_anchors Samples.doc Samples.anchors 0 11 eq_refl)
    as (_ & it & Hit & _ & _ & _ & Hcap).
  exists it. split; [exact Hit|]. apply Hcap. discriminate.
Defined.

End GalleryClaims.

(** * Further properties of the script *)

(** ** Panel toggler *)

Section PanelExtras.

Import Panels.

Variable body : node.
Variable panelMap : list entry.

Implicit Types (d : classes) (p q t n : node) (ts : list node) (c : string).

(** The listeners write no class but [active] and [content-active]. *)
Lemma hidePanel_class p ts d n c :
  c ≠ "active" → c ≠ "content-active" →
  contains (hidePanel body p ts d) n c = contains d n c.
Proof.
  intros H1 H2. unfold hidePanel.
  rewrite contains_remove_other by (right; congruence).
  rewrite remove_each_other by (right; congruence).
  apply contains_remove_other. right. congruence.
Qed.

Lemma hide_entries_class (l : list entry) d n c :
  c ≠ "active" → c ≠ "content-active" →
  contains (foldl (λ acc e, hidePanel body (panel e) (toggles e) acc) d l) n c
  = contains d n c.
Proof.
  intros H1 H2. revert d. induction l as [|e l IH]; intros d; simpl; [done|].
  rewrite IH. by apply hidePanel_class.
Qed.

Lemma showPanel_class p ts d n c :
  c ≠ "active" → c ≠ "content-active" →
  contains (showPanel body panelMap p ts d) n c = contains d n c.
Proof.
  intros H1 H2. unfold showPanel.
  rewrite contains_add_other by (right; congruence).
  rewrite add_each_other by (right; congruence).
  rewrite contains_add_other by (right; congruence).
  by apply hide_entries_class.
Qed.

Lemma fire_keeps_other_classes (a : action) d n c :
  c ≠ "active" → c ≠ "content-active" →
  contains (fire body panelMap a d) n c = contains d n c.
Proof.
  intros H1 H2. destruct a as [k|k j|k| |k]; simpl.
  - by destruct (panelMap !! k).
  - destruct (panelMap !! k) as [e|]; [|done].
    destruct (toggles e !! j); [|done]. simpl. unfold togglePanel.
    destruct (contains d (panel e) "active").
    + by apply hidePanel_class.
    + by apply showPanel_class.
  - destruct (panelMap !! k) as [e|]; [|done].
    destruct (closer e); [|done]. simpl. by apply hidePanel_class.
  - unfold onBodyClick. destruct (contains d body "content-active"); [|done].
    simpl. by apply hide_entries_class.
  - unfold onKeyUp. simpl.
    destruct ((k =? "Escape")%string && contains d body "content-active"); [|done].
    simpl. by apply hide_entries_class.
Qed.

(** X1. Through any sequence of listener invocations of the panel
    toggler, no element gains or loses a class other than [active] and
    [content-active]. *)
Theorem panel_listeners_touch_two_classes d0 d n c :
  reachable body panelMap d0 d →
  c ≠ "active" → c ≠ "content-active" →
  contains d n c = contains d0 n c.
Proof.
  intros Hr H1 H2. induction Hr as [|a d Hr IH]; [done|].
  rewrite <- IH. by apply fire_keeps_other_classes.
Qed.

(** X2. Every listener other than a toggle's only removes classes: a
    class an element carries afterwards, it carried before. *)
Theorem closing_listeners_only_remove (a : action) d n c :
  (∀ k j, a ≠ ToggleClick k j) →
  contains (fire body panelMap a d) n c = true →
  contains d n c = true.
Proof.
  intros Ha. destruct a as [k|k j|k| |k]; simpl.
  - by destruct (panelMap !! k).
  - by destruct (Ha k j).
  - destruct (panelMap !! k) as [e|]; [|done].
    destruct (closer e); [|done]. simpl. apply hidePanel_mono.
  - unfold onBodyClick. destruct (contains d body "content-active"); [|done].
    simpl. apply hideAll_mono.
  - unfold onKeyUp. simpl.
    destruct ((k =? "Escape")%string && contains d body "content-active"); [|done].
    simpl. apply hideAll_mono.
Qed.

(** X3. Whenever the body carries [content-active], some panel of the
    map is active: this holds in every state reached from one in which
    it holds (the converse does not, see C4). *)
Theorem content_active_has_active_panel d0 d :
  (content_active body d0 → ∃ p, is_panel panelMap p ∧ active d0 p) →
  reachable body panelMap d0 d →
  content_active body d →
  ∃ p, is_panel panelMap p ∧ active d p.
Proof.
  intros H0 Hr. induction Hr as [|a d Hr IH]; [done|].
  assert (Hall : content_active body (hideAll body panelMap d) →
                 ∃ p, is_panel panelMap p ∧ active (hideAll body panelMap d) p).
  { unfold content_active, hideAll. destruct panelMap as [|e l] eqn:Hpm.
    - exact IH.
    - by rewrite hide_entries_body. }
  destruct a as [k|k j|k| |k]; simpl.
  - by destruct (panelMap !! k).
  - destruct (panelMap !! k) as [e|] eqn:Hk; [|done].
    destruct (toggles e !! j); [|done]. simpl. unfold togglePanel.
    destruct (contains d (panel e) "active").
    + unfold content_active. by rewrite hidePanel_body.
    + intros _. exists (panel e). split.
      * exists e. split; [by eapply list_elem_of_lookup_2|done].
      * apply showPanel_panel.
  - destruct (panelMap !! k) as [e|]; [|done].
    destruct (closer e); [|done]. simpl.
    unfold content_active. by rewrite hidePanel_body.
  - unfold onBodyClick. by destruct (contains d body "content-active").
  - unfold onKeyUp. simpl.
    by destruct ((k =? "Escape")%string && contains d body "content-active").
Qed.

(** X4. Clicking the toggle of an inactive panel twice leaves that
    panel, its toggles and the body unmarked; if no toggle is a panel, no
    panel at all is active afterwards. *)
Theorem toggle_twice_closes (k j : nat) (e : entry) t d :
  panelMap !! k = Some e →
  toggles e !! j = Some t →
  contains d (panel e) "active" = false →
  let d2 := fire body panelMap (ToggleClick k j)
              (fire body panelMap (ToggleClick k j) d) in
  ¬ active d2 (panel e) ∧
  (∀ u, u ∈ toggles e → ¬ active d2 u) ∧
  ¬ content_active body d2 ∧
  (toggles_apart panelMap → no_panel_active panelMap d2).
Proof.
  intros Hk Hj Hin d2.
  assert (Heq : d2 = hidePanel body (panel e) (toggles e)
                       (showPanel body panelMap (panel e) (toggles e) d)).
  { subst d2. simpl. rewrite Hk, Hj. simpl.
    unfold togglePanel at 2. rewrite Hin.
    unfold togglePanel. by rewrite showPanel_panel. }
  rewrite Heq. clear Heq d2.
  unfold active, content_active. rewrite hidePanel_panel, hidePanel_body.
  split; [done|]. split. { intros u Hu. by rewrite hidePanel_toggle. }
  split; [done|]. intros Hwf q Hq. unfold active.
  assert (He : e ∈ panelMap) by by eapply list_elem_of_lookup_2.
  destruct (decide (q = panel e)) as [->|Hne].
  - by rewrite hidePanel_panel.
  - rewrite hidePanel_absent; [done|]. apply showPanel_other; [done..|].
    intros Hu. by apply (Hwf e q).
Qed.

(** X5. With a non-empty panel map, a body click or an Escape [keyup]
    that finds the marker consumes the event and removes the marker, so
    that the same event right after is let through untouched. *)
Theorem closing_event_is_consumed_once (ev ev' : Event) d :
  panelMap ≠ [] →
  content_active body d →
  let r := onBodyClick body panelMap ev d in
  let u := onKeyUp body panelMap (mkKey "Escape" ev) d in
  r = (stopPropagation (preventDefault ev), hideAll body panelMap d) ∧
  snd u = snd r ∧ flags (fst u) = fst r ∧
  ¬ content_active body (snd r) ∧
  onBodyClick body panelMap ev' (snd r) = (ev', snd r) ∧
  onKeyUp body panelMap (mkKey "Escape" ev') (snd r)
    = (mkKey "Escape" ev', snd r).
Proof.
  intros Hne Hc r u. subst r u. unfold content_active in *.
  unfold onBodyClick, onKeyUp. simpl. rewrite Hc. simpl.
  assert (Hb : contains (hideAll body panelMap d) body "content-active" = false).
  { unfold hideAll. by apply hide_entries_body. }
  rewrite Hb. done.
Qed.

End PanelExtras.

Lemma panel_listeners_touch_two_classes_witness :
  contains (Panels.fire Samples.body Samples.panels (Panels.ToggleClick 1 0)
              (add ∅ Samples.body "modal-active")) Samples.body "modal-active"
  = true.
Proof.
  rewrite (panel_listeners_touch_two_classes Samples.body Samples.panels
             (add ∅ Samples.body "modal-active") _ Samples.body "modal-active").
  - reflexivity.
  - apply Panels.reach_fire, Panels.reach_init.
  - discriminate.
  - discriminate.
Defined.

Lemma closing_listeners_only_remove_witness :
  contains (Panels.fire Samples.body Samples.panels (Panels.CloserClick 0)
              Samples.second_open) 2 "active" = true ∧
  contains Samples.second_open 2 "active" = true.
Proof.
  assert (H : contains (Panels.fire Samples.body Samples.panels
                          (Panels.CloserClick 0) Samples.second_open) 2 "active"
              = true) by reflexivity.
  split; [exact H|].
  apply (closing_listeners_only_remove Samples.body Samples.panels
           (Panels.CloserClick 0) Samples.second_open 2 "active");
    [discriminate | exact H].
Defined.

Lemma content_active_has_active_panel_witness :
  Panels.content_active Samples.body Samples.second_open ∧
  ∃ p, Panels.is_panel Samples.panels p ∧ Panels.active Samples.second_open p.
Proof.
  assert (Hc : Panels.content_active Samples.body Samples.second_open)
    by reflexivity.
  split; [exact Hc|].
  apply (content_active_has_active_panel Samples.body Samples.panels ∅
           Samples.second_open).
  - intros H. discriminate H.
  - apply (Panels.reach_fire _ _ _ (Panels.ToggleClick 1 0)), Panels.reach_init.
  - exact Hc.
Defined.

Lemma toggle_twice_closes_witness :
  Samples.panels !! 1 = Some (Panels.mkEntry 2 [4] None) ∧
  ¬ Panels.active
      (Panels.fire Samples.body Samples.panels (Panels.ToggleClick 1 0)
         Samples.second_open) 2.
Proof.
  split; [reflexivity|].
  assert (H : contains ∅ 2 "active" = false) by reflexivity.
  destruct (toggle_twice_closes Samples.body Samples.panels 1 0
              (Panels.mkEntry 2 [4] None) 4 ∅ eq_refl eq_refl H) as (Hp & _).
  exact Hp.
Defined.

Lemma closing_event_is_consumed_once_witness :
  Panels.content_active Samples.body Samples.second_open ∧
  ¬ Panels.content_active Samples.body
      (snd (Panels.onBodyClick Samples.body Samples.panels fresh_event
              Samples.second_open)).
Proof.
  assert (Hc : Panels.content_active Samples.body Samples.second_open)
    by reflexivity.
  split; [exact Hc|].
  destruct (closing_event_is_consumed_once Samples.body Samples.panels
              fresh_event fresh_event Samples.second_open ltac:(discriminate) Hc)
    as (_ & _ & _ & Hgone & _).
  exact Hgone.
Defined.

(** ** Lightbox *)

Section LightboxExtras.

Import Gallery Lightbox Invariants.

Implicit Types (s : state) (e : event) (complete : string → bool).

Lemma run_cons complete e (es : list event) s :
  run complete (e :: es) s = run complete es (step complete e s).
Proof. reflexivity. Qed.

Lemma run_reachable complete (es : list event) s :
  reachable s → reachable (run complete es s).
Proof.
  revert s. induction es as [|e es IH]; intros s Hr; [done|].
  rewrite run_cons. apply IH. by constructor.
Qed.

Lemma run_items complete (es : list event) s :
  items (run complete es s) = items s.
Proof.
  revert s. induction es as [|e es IH]; intros s; [done|].
  by rewrite run_cons, IH, step_items.
Qed.

Lemma next_index_range (n i : Z) :
  (0 ≤ i < n)%Z → (0 ≤ next_index n i < n)%Z.
Proof.
  intros H. rewrite next_index_mod by done. apply Z.mod_pos_bound. lia.
Qed.

Lemma previous_index_range (n i : Z) :
  (0 ≤ i < n)%Z → (0 ≤ previous_index n i < n)%Z.
Proof.
  intros H. rewrite previous_index_mod by done. apply Z.mod_pos_bound. lia.
Qed.

Lemma rendered_count s : rendered s = true → (1 ≤ count s)%Z.
Proof.
  unfold rendered, activeItem, item_at, count. intros H.
  apply andb_true_iff in H as [_ H]. apply bool_decide_eq_true in H.
  destruct (activeIndex s <? 0)%Z; [by destruct H|].
  destruct (items s); simpl; [|lia]. by destruct H.
Qed.

Lemma onKeyDown_in_bounds (ev : KeyboardEvent) s :
  in_bounds s → in_bounds (snd (onKeyDown ev s)).
Proof.
  unfold in_bounds, onKeyDown. intros H.
  destruct (negb (isOpen s)); [done|].
  destruct (Z.eqb_spec (count s) 0) as [|Hn]; [done|].
  assert (Hc : (1 ≤ count s)%Z) by (unfold count in *; lia).
  assert (Hi : (0 ≤ activeIndex s < count s)%Z) by lia.
  pose proof (next_index_range _ _ Hi) as Hnx.
  pose proof (previous_index_range _ _ Hi) as Hpv.
  pose proof (previous_index_range _ _ Hnx) as Hpn.
  destruct (key ev =? "Escape")%string,
    ((key ev =? "ArrowRight")%string || (key ev =? " ")%string),
    (key ev =? "ArrowLeft")%string; simpl; unfold count in *; simpl; lia.
Qed.

Lemma handle_in_bounds e s : in_bounds s → in_bounds (handle e s).
Proof.
  intros H. destruct e; simpl; try (destruct (rendered s); done);
    try (destruct (preview s); done).
  - destruct (bool_decide _) eqn:Hb; [|done].
    apply bool_decide_eq_true in Hb. unfold in_bounds, count. simpl. lia.
  - by apply onKeyDown_in_bounds.
  - destruct (rendered s); [|done]. by destruct interactive.
  - destruct (rendered s) eqn:Hr; [|done]. apply rendered_count in Hr.
    unfold in_bounds in *. simpl.
    assert (Hi : (0 ≤ activeIndex s < count s)%Z) by lia.
    pose proof (previous_index_range _ _ Hi). unfold count in *. simpl. lia.
  - destruct (rendered s) eqn:Hr; [|done]. apply rendered_count in Hr.
    unfold in_bounds in *. simpl.
    assert (Hi : (0 ≤ activeIndex s < count s)%Z) by lia.
    pose proof (next_index_range _ _ Hi). unfold count in *. simpl. lia.
Qed.

Lemma reachable_in_bounds s : reachable s → in_bounds s.
Proof.
  induction 1 as [complete doc anchors | complete e s Hr IH].
  - unfold in_bounds, mount. rewrite settle_activeIndex. simpl. lia.
  - unfold in_bounds, step. rewrite settle_activeIndex, settle_count.
    by apply handle_in_bounds.
Qed.

Lemma reachable_open_range s :
  reachable s → isOpen s = true → (0 ≤ activeIndex s < count s)%Z.
Proof.
  intros Hr Ho. pose proof (reachable_in_bounds s Hr) as Hb.
  pose proof (reachable_open_nonempty s Hr Ho) as Hne.
  unfold in_bounds, count in *. destruct (items s); simpl in *; [done|lia].
Qed.

Lemma reachable_rendered s : reachable s → rendered s = isOpen s.
Proof.
  intros Hr. destruct (isOpen s) eqn:Ho.
  - apply rendered_in_range; [done|]. by apply reachable_open_range.
  - unfold rendered. by rewrite Ho.
Qed.

(** X6. In every state of the mounted component the active index is a
    valid position of the item list (0 for an empty list), and the
    overlay is rendered exactly when it is open: an open lightbox always
    has an item to show. *)
Theorem active_index_in_bounds s :
  reachable s →
  (0 ≤ activeIndex s < Z.max 1 (count s))%Z ∧
  rendered s = isOpen s ∧
  (isOpen s = true → is_Some (activeItem s)).
Proof.
  intros Hr. split; [by apply reachable_in_bounds|].
  split; [by apply reachable_rendered|]. intros Ho.
  apply item_at_in_range. by apply reachable_open_range.
Qed.

Lemma step_left complete s :
  isOpen s = true → count s ≠ 0%Z →
  isOpen (step complete (KeyDown "ArrowLeft") s) = true ∧
  activeIndex (step complete (KeyDown "ArrowLeft") s)
    = previous_index (count s) (activeIndex s).
Proof.
  intros Ho Hn. unfold step. rewrite settle_isOpen, settle_activeIndex.
  simpl. by rewrite onKeyDown_left by auto.
Qed.

(** X7. From an open lightbox at index [i] over [n] items, [k] presses
    of ArrowRight that reach the listener on [window] lead to index
    [(i + k) mod n], in particular [n] of them lead back to [i]; any
    number of presses whose target lies inside the popup leave the state
    as it is. *)
Theorem arrow_right_cycles complete (k : nat) s :
  reachable s → isOpen s = true →
  activeIndex (run complete (replicate k (KeyDown "ArrowRight")) s)
    = ((activeIndex s + Z.of_nat k) mod count s)%Z ∧
  activeIndex (run complete
                 (replicate (length (items s)) (KeyDown "ArrowRight")) s)
    = activeIndex s ∧
  run complete (replicate k (PopupKeyDown "ArrowRight")) s = s.
Proof.
  assert (Hgen : ∀ k s, reachable s → isOpen s = true →
    activeIndex (run complete (replicate k (KeyDown "ArrowRight")) s)
    = ((activeIndex s + Z.of_nat k) mod count s)%Z).
  { clear k s. induction k as [|k IH]; intros s Hr Ho.
    - pose proof (reachable_open_range s Hr Ho).
      simpl. rewrite Z.add_0_r, Z.mod_small; [done|lia].
    - pose proof (reachable_open_range s Hr Ho) as Hi.
      destruct (step_right complete s Ho ltac:(lia)) as [Ho' Hi'].
      change (replicate (S k) (KeyDown "ArrowRight"))
        with (KeyDown "ArrowRight" :: replicate k (KeyDown "ArrowRight")).
      rewrite run_cons, IH; [|by constructor|done].
      rewrite step_count, Hi', next_index_mod by done.
      rewrite Z.add_mod_idemp_l by lia. f_equal. lia. }
  intros Hr Ho. split; [by apply Hgen|].
  split; [|apply run_popup_keydown].
  pose proof (reachable_open_range s Hr Ho) as Hi.
  rewrite Hgen by done. fold (count s).
  rewrite <- (Z.mul_1_l (count s)) at 1.
  rewrite Z.mod_add by lia. apply Z.mod_small. lia.
Qed.

(** X8. ArrowLeft undoes ArrowRight and ArrowRight undoes ArrowLeft: after
    the two presses the lightbox is open at the index it started from. *)
Theorem arrows_are_inverse complete s :
  reachable s → isOpen s = true →
  activeIndex (step complete (KeyDown "ArrowLeft")
                 (step complete (KeyDown "ArrowRight") s)) = activeIndex s ∧
  activeIndex (step complete (KeyDown "ArrowRight")
                 (step complete (KeyDown "ArrowLeft") s)) = activeIndex s.
Proof.
  intros Hr Ho. pose proof (reachable_open_range s Hr Ho) as Hi.
  assert (Hn : count s ≠ 0%Z) by lia.
  destruct (step_right complete s Ho Hn) as [Ho1 Hi1].
  destruct (step_left complete s Ho Hn) as [Ho2 Hi2].
  split.
  - destruct (step_left complete (step complete (KeyDown "ArrowRight") s))
      as [_ ->]; [done|by rewrite step_count|].
    rewrite step_count, Hi1, next_index_mod by done.
    rewrite previous_index_mod by (apply Z.mod_pos_bound; lia).
    destruct (decide (activeIndex s + 1 = count s)%Z) as [E|E].
    + rewrite E, Z.mod_same by lia.
      rewrite Z.mod_small; lia.
    + rewrite (Z.mod_small (activeIndex s + 1)) by lia.
      replace (activeIndex s + 1 - 1 + count s)%Z
        with (activeIndex s + 1 * count s)%Z by lia.
      rewrite Z.mod_add by lia. apply Z.mod_small. lia.
  - destruct (step_right complete (step complete (KeyDown "ArrowLeft") s))
      as [_ ->]; [done|by rewrite step_count|].
    rewrite step_count, Hi2, previous_index_mod by done.
    rewrite next_index_mod by (apply Z.mod_pos_bound; lia).
    rewrite Z.add_mod_idemp_l by lia.
    replace (activeIndex s - 1 + count s + 1)%Z
      with (activeIndex s + 1 * count s)%Z by lia.
    rewrite Z.mod_add by lia. apply Z.mod_small. lia.
Qed.

(** X9. While the lightbox is closed the [keydown] listener lets every
    key through, and while it is open every key other than Escape, the
    two arrows and Space: the event is returned as it came and the state
    is unchanged. *)
Theorem other_keys_pass_through complete (k : string) (f : Event) s :
  isOpen s = false ∨
  (k ≠ "Escape" ∧ k ≠ "ArrowRight" ∧ k ≠ " " ∧ k ≠ "ArrowLeft") →
  onKeyDown (mkKey k f) s = (mkKey k f, s) ∧
  step complete (KeyDown k) s = s.
Proof.
  intros H.
  assert (Hk : ∀ f, onKeyDown (mkKey k f) s = (mkKey k f, s)).
  { intros f'. unfold onKeyDown. destruct H as [-> | (H1 & H2 & H3 & H4)]; [done|].
    destruct (negb (isOpen s)); [done|]. destruct (count s =? 0)%Z; [done|].
    simpl. apply String.eqb_neq in H1, H2, H3, H4.
    by rewrite H1, H2, H3, H4. }
  split; [apply Hk|]. unfold step, settle. simpl. rewrite Hk. simpl.
  by rewrite decide_True.
Qed.

(** X10. An Escape that reaches the listener on [window], the closer,
    the backdrop and a click on the popup outside its interactive region
    close an open lightbox, keep the index, the items and the loading
    flag, and detach the preload image: after that, no load or error
    callback changes the state.  A key whose target lies inside the popup,
    Escape included, is stopped there and closes nothing. *)
Theorem closing_detaches_preload complete e s :
  reachable s → isOpen s = true → closing e →
  let s' := step complete e s in
  s' = setPreview None (setIsOpen false s) ∧
  (∀ complete' e', load_or_error e' → step complete' e' s' = s') ∧
  (∀ k, step complete (PopupKeyDown k) s = s).
Proof.
  intros Hr Ho Hcl s'.
  pose proof (reachable_open_range s Hr Ho) as Hi.
  assert (Hrend : rendered s = true) by by rewrite reachable_rendered.
  assert (Hh : handle e s = setIsOpen false s).
  { destruct Hcl as [-> | [-> | [-> | ->]]]; simpl; rewrite ?Hrend; try done.
    rewrite onKeyDown_escape; [done..|lia]. }
  assert (Hs : s' = setPreview None (setIsOpen false s)).
  { unfold s', step, settle. rewrite Hh. rewrite decide_False.
    - unfold preloadEffect. by destruct (activeHref (setIsOpen false s)).
    - unfold deps. simpl. rewrite Ho. congruence. }
  split; [done|]. split; [|intros k; apply step_popup_keydown].
  intros complete' e' He'. rewrite Hs.
  assert (Hh' : handle e' (setPreview None (setIsOpen false s))
                = setPreview None (setIsOpen false s)).
  { destruct He' as [-> | [-> | [-> | ->]]]; reflexivity. }
  unfold step, settle. rewrite Hh'. by rewrite decide_True.
Qed.

(** X11. The item list is the one scanned at mount, whatever happens
    afterwards; and on a page without thumbnail anchors the lightbox
    never opens. *)
Theorem gallery_fixed_after_mount complete0 complete doc (anchors : list node)
    (es : list event) :
  let s := run complete es (mount complete0 doc anchors) in
  items s = getGalleryItems doc anchors ∧
  (anchors = [] → isOpen s = false ∧ rendered s = false).
Proof.
  intros s. assert (Hi : items s = getGalleryItems doc anchors).
  { unfold s. by rewrite run_items, mount_items. }
  split; [done|]. intros ->.
  assert (Hr : reachable s) by (apply run_reachable; constructor).
  assert (Ho : isOpen s = false).
  { destruct (isOpen s) eqn:Ho; [|done].
    by destruct (reachable_open_nonempty s Hr Ho). }
  split; [done|]. by rewrite reachable_rendered.
Qed.

(** X12. With a single item, every navigation (the next and previous
    controls, and the arrows and Space when they reach the listener on
    [window]) only raises the loading flag: the index stays, the effect
    does not run again and no new preload image is created.  A key whose
    target lies inside the popup is stopped there and does not even raise
    the flag. *)
Theorem single_item_navigation_only_sets_loading complete e s :
  reachable s → isOpen s = true → count s = 1%Z → navigating e →
  step complete e s = setIsLoading true s ∧
  (∀ k, step complete (PopupKeyDown k) s = s).
Proof.
  intros Hr Ho Hc Hnav.
  pose proof (reachable_open_range s Hr Ho) as Hi.
  assert (H0 : activeIndex s = 0%Z) by lia.
  assert (Hrend : rendered s = true) by by rewrite reachable_rendered.
  assert (Hh : handle e s = setIsLoading true s).
  { destruct Hnav as [-> | [-> | [-> | [-> | ->]]]]; simpl;
      rewrite ?Hrend, ?onKeyDown_right, ?onKeyDown_left by (auto; lia);
      simpl; rewrite Hc; destruct s as [its o ix l p]; simpl in *; by subst. }
  split; [|intros k; apply step_popup_keydown].
  unfold step, settle. rewrite Hh. by rewrite decide_True.
Qed.

Lemma preload_coherent_at s (target : string) :
  reachable s → isOpen s = true → activeHref s = Some target → target ≠ "" →
  preview s = Some target.
Proof.
  intros Hr Ho Ha Hne. rewrite (reachable_coherent s Hr).
  by apply attached_spec.
Qed.

(** X13. In every state of the mounted component a preload image is
    attached exactly when the lightbox is open on an item with a
    non-empty link target, and it is the image of that target. *)
Theorem preload_follows_active_item s (target : string) :
  reachable s →
  preview s = Some target ↔
  isOpen s = true ∧ activeHref s = Some target ∧ target ≠ "".
Proof.
  intros Hr. rewrite (reachable_coherent s Hr). apply attached_spec.
Qed.

End LightboxExtras.

Section LightboxExtraWitnesses.

Import Gallery Lightbox Invariants.

Let opened : state := step Samples.none_cached (AnchorClick 2) Samples.mounted.

Lemma sample_opened_reachable : reachable opened.
Proof. do 2 constructor. Qed.

Lemma active_index_in_bounds_witness :
  reachable opened ∧ activeIndex opened = 2%Z ∧ rendered opened = true.
Proof.
  split; [exact sample_opened_reachable|]. split; [reflexivity|].
  destruct (active_index_in_bounds opened sample_opened_reachable) as (_ & H & _).
  exact H.
Defined.

Lemma arrow_right_cycles_witness :
  isOpen opened = true ∧
  activeIndex (run Samples.all_cached (replicate 2 (KeyDown "ArrowRight")) opened)
    = 1%Z.
Proof.
  assert (Ho : isOpen opened = true) by reflexivity.
  split; [exact Ho|].
  destruct (arrow_right_cycles Samples.all_cached 2 opened
              sample_opened_reachable Ho) as (H & _).
  exact H.
Defined.

Lemma arrows_are_inverse_witness :
  activeIndex (step Samples.all_cached (KeyDown "ArrowLeft")
                 (step Samples.all_cached (KeyDown "ArrowRight") opened)) = 2%Z.
Proof.
  destruct (arrows_are_inverse Samples.all_cached opened
              sample_opened_reachable eq_refl) as (H & _).
  exact H.
Defined.

Lemma other_keys_pass_through_witness :
  step Samples.all_cached (KeyDown " ") Samples.mounted = Samples.mounted ∧
  step Samples.all_cached (KeyDown "Enter") opened = opened.
Proof.
  split.
  - apply (other_keys_pass_through Samples.all_cached " " fresh_event
             Samples.mounted). left. reflexivity.
  - apply (other_keys_pass_through Samples.all_cached "Enter" fresh_event
             opened). right. repeat split; discriminate.
Defined.

Lemma closing_detaches_preload_witness :
  let closed := step Samples.none_cached CloserClick
                  (step Samples.none_cached (AnchorClick 0) Samples.mounted) in
  isOpen closed = false ∧ preview closed = None ∧
  step Samples.all_cached PreviewLoad closed = closed.
Proof.
  intros closed.
  destruct (closing_detaches_preload Samples.none_cached CloserClick
              (step Samples.none_cached (AnchorClick 0) Samples.mounted))
    as (Hs & Hstale).
  - do 2 constructor.
  - reflexivity.
  - right. left. reflexivity.
  - split; [reflexivity|]. split; [reflexivity|].
    apply Hstale. right. right. left. reflexivity.
Defined.

Lemma single_item_navigation_only_sets_loading_witness :
  let one := step Samples.all_cached (AnchorClick 0)
               (mount Samples.all_cached Samples.doc [11]) in
  isLoading one = false ∧
  step Samples.all_cached NextClick one = setIsLoading true one.
Proof.
  intros one. split; [reflexivity|].
  apply (single_item_navigation_only_sets_loading Samples.all_cached NextClick one).
  - do 2 constructor.
  - reflexivity.
  - reflexivity.
  - right. right. right. left. reflexivity.
Defined.

Lemma preload_follows_active_item_witness :
  let first := step Samples.none_cached (AnchorClick 0) Samples.mounted in
  preview first = Some "one.jpg" ∧ isOpen first = true ∧
  activeHref first = Some "one.jpg".
Proof.
  intros first.
  assert (Hp : preview first = Some "one.jpg") by reflexivity.
  split; [exact Hp|].
  destruct (preload_follows_active_item first "one.jpg") as [H _].
  - do 2 constructor.
  - destruct (H Hp) as (Ho & Ha & _). split; [exact Ho | exact Ha].
Defined.

End LightboxExtraWitnesses.

(** ** The [modal-active] class *)

Section ModalExtras.

Import Lightbox Page PageEvents.

Variable body : node.
Variable panelMap : list Panels.entry.

(** The [keydown] of the page is the dispatch of that lightbox event. *)
Lemma keydown_is_dispatch complete (inside : bool) (k : string) (pg : page) :
  keydown body complete inside k pg
  = dispatch body panelMap
      (OfLightbox complete (if inside then PopupKeyDown k else KeyDown k)) pg.
Proof. reflexivity. Qed.

Lemma modal_settle_mirrors (before after : state) (d : classes) :
  contains d body "modal-active" = isOpen before →
  contains (modal_settle body before after d) body "modal-active"
  = isOpen after.
Proof.
  intros H. unfold modal_settle. destruct (decide _) as [E|E].
  - unfold modal_deps in E. injection E as E _. by rewrite <- E.
  - unfold modalEffect. destruct (isOpen after).
    + apply contains_add_same.
    + apply contains_remove_same.
Qed.

(** X14. After mount and after every event of the page (lightbox events
    and panel listeners alike) the body carries [modal-active] exactly
    when the lightbox is open. *)
Theorem modal_active_mirrors_open complete doc (anchors : list node)
    (d : classes) (pg : page) :
  reachable body panelMap (mounted body complete doc anchors d) pg →
  contains (dom pg) body "modal-active" = isOpen (lightbox pg).
Proof.
  induction 1 as [|ev pg Hr IH].
  - unfold mounted. simpl. apply modal_settle_mirrors.
    unfold modalEffect. simpl. apply contains_remove_same.
  - destruct ev as [c e|a]; simpl.
    + by apply modal_settle_mirrors.
    + rewrite fire_keeps_other_classes by discriminate. exact IH.
Qed.

End ModalExtras.

Lemma modal_active_mirrors_open_witness :
  let pg := PageEvents.dispatch Samples.body Samples.panels
              (PageEvents.OfPanels (Panels.ToggleClick 1 0))
              (PageEvents.dispatch Samples.body Samples.panels
                 (PageEvents.OfLightbox Samples.none_cached (Lightbox.AnchorClick 0))
                 (PageEvents.mounted Samples.body Samples.none_cached Samples.doc
                    Samples.anchors ∅)) in
  Lightbox.isOpen (Page.lightbox pg) = true ∧
  contains (Page.dom pg) Samples.body "modal-active" = true.
Proof.
  intros pg. split; [reflexivity|].
  rewrite (modal_active_mirrors_open Samples.body Samples.panels
             Samples.none_cached Samples.doc Samples.anchors ∅ pg).
  - reflexivity.
  - do 2 constructor. constructor.
Defined.

(** ** Gallery scan *)

Section GalleryExtras.

Import Gallery.

(** X15. A scanned item never carries the empty string as caption: the
    caption is absent or non-empty; it is absent in particular for an
    anchor that has no element sibling. *)
Theorem captions_are_never_empty (doc : document) (anchors : list node)
    (it : GalleryItem) :
  it ∈ getGalleryItems doc anchors →
  caption it ≠ Some "" ∧
  ∃ a, a ∈ anchors ∧ it = item_of doc a ∧
       (siblings_of doc a = [] → caption it = None).
Proof.
  unfold getGalleryItems. intros Hin.
  apply list_elem_of_fmap in Hin as (a & -> & Ha).
  assert (Hc : caption (item_of doc a)
               = or_undefined (markup doc (siblings_of doc a))).
  { unfold item_of, siblings_of. simpl. rewrite join_markup.
    by destruct (parentElement doc a). }
  split.
  - rewrite Hc. unfold or_undefined.
    destruct (String.eqb_spec (markup doc (siblings_of doc a)) ""); congruence.
  - exists a. split; [done|]. split; [done|]. intros Hs. by rewrite Hc, Hs.
Qed.

End GalleryExtras.

Lemma captions_are_never_empty_witness :
  Gallery.mkItem "" None ∈ Gallery.getGalleryItems Samples.doc Samples.anchors ∧
  Gallery.caption (Gallery.mkItem "" None) ≠ Some "".
Proof.
  assert (H : Gallery.mkItem "" None
              ∈ Gallery.getGalleryItems Samples.doc Samples.anchors).
  { apply list_elem_of_further, list_elem_of_further, list_elem_of_here. }
  split; [exact H|].
  destruct (captions_are_never_empty Samples.doc Samples.anchors _ H) as (Hc & _).
  exact Hc.
Defined.

(** ** Footer relocation *)

Section FooterExtras.

Import Footer.

Implicit Types (d : tree) (c p n : node).

Lemma without_idem c (l : list node) : without c (without c l) = without c l.
Proof.
  unfold without. induction l as [|x l IH]; [done|].
  rewrite (filter_cons _ x l). destruct (decide (x ≠ c)) as [Hx|Hx]; [|done].
  rewrite filter_cons. rewrite decide_True by done. by rewrite IH.
Qed.

Lemma without_snoc c (l : list node) : without c (l ++ [c]) = without c l.
Proof.
  unfold without. rewrite filter_app. rewrite (filter_cons _ c []).
  rewrite decide_False by (intros H; by apply H). apply app_nil_r.
Qed.

(** What [appendChild] does to the other elements. *)
Lemma appendChild_frame target c d :
  (∀ n, n ≠ c →
     parentElement (appendChild target c d) n = parentElement d n) ∧
  (∀ p, without c (children (appendChild target c d) p)
        = without c (children d p)) ∧
  lastElementChild (appendChild target c d) target = Some c.
Proof.
  unfold lastElementChild, parentElement, children, appendChild. simpl.
  set (detached := match parents d !! c with
                   | Some p => <[p := without c (default [] (kids d !! p))]> (kids d)
                   | None => kids d
                   end).
  assert (Hdet : ∀ p, without c (default [] (detached !! p))
                      = without c (default [] (kids d !! p))).
  { intros p. unfold detached. destruct (parents d !! c) as [q|]; [|done].
    destruct (decide (q = p)) as [->|Hne].
    - rewrite lookup_insert_eq. simpl. apply without_idem.
    - by rewrite lookup_insert_ne. }
  split; [|split].
  - intros n Hn. by rewrite lookup_insert_ne.
  - intros p. destruct (decide (target = p)) as [->|Hne].
    + rewrite lookup_insert_eq. simpl. by rewrite without_snoc.
    + by rewrite lookup_insert_ne.
  - rewrite lookup_insert_eq. simpl. apply last_snoc.
Qed.

Lemma updateLocation_frame (l : located) (width : Z) d :
  (∀ n, n ≠ copyright l →
     parentElement (updateLocation l (max_width_980 width) d) n
     = parentElement d n) ∧
  (∀ p, without (copyright l)
          (children (updateLocation l (max_width_980 width) d) p)
        = without (copyright l) (children d p)) ∧
  lastElementChild (updateLocation l (max_width_980 width) d)
    (target_of l width) = Some (copyright l).
Proof.
  unfold updateLocation, target_of.
  destruct (max_width_980 width); apply appendChild_frame.
Qed.

(** X16. The routine moves nothing but the copyright block: after setup
    and any number of change events every other element has the parent
    it had, the other children of every element keep their order, and
    the block is the last child of the container it was moved to (also
    when that is its original container). *)
Theorem relocation_moves_only_the_block (l : located) (width : Z)
    (widths : list Z) d :
  let final := after_changes (Some l) widths
                 (updateLocation l (max_width_980 width) d) in
  let w := default width (last widths) in
  (∀ n, n ≠ copyright l → parentElement final n = parentElement d n) ∧
  (∀ p, without (copyright l) (children final p)
        = without (copyright l) (children d p)) ∧
  lastElementChild final (target_of l w) = Some (copyright l).
Proof.
  revert width d. induction widths as [|w' ws IH]; intros width d.
  - simpl. apply updateLocation_frame.
  - pose proof (updateLocation_frame l width d) as (Hp & Hc & _).
    specialize (IH w' (updateLocation l (max_width_980 width) d)).
    destruct IH as (IHp & IHc & IHl).
    change (after_changes (Some l) (w' :: ws)
              (updateLocation l (max_width_980 width) d))
      with (after_changes (Some l) ws
              (updateLocation l (max_width_980 w')
                 (updateLocation l (max_width_980 width) d))).
    replace (default width (last (w' :: ws))) with (default w' (last ws)).
    2:{ rewrite last_cons. by destruct (last ws). }
    cbv zeta. split; [|split].
    + intros n Hn. by rewrite IHp, Hp.
    + intros p. by rewrite IHc, Hc.
    + exact IHl.
Qed.

(** X17. If the footer, the copyright block, its parent, that parent's
    parent or the latter's last child is missing, the routine registers
    nothing and leaves the document as it is, at setup and at every later
    change of the media query. *)
Theorem footer_setup_without_elements (footer : option node)
    (query : node → option node) (width : Z) (widths : list Z) d :
  footer = None ∨
  footer ≫= query = None ∨
  (∃ c, footer ≫= query = Some c ∧
        (parentElement d c = None ∨
         ∃ p, parentElement d c = Some p ∧
              (parentElement d p = None ∨
               ∃ g, parentElement d p = Some g ∧ children d g = []))) →
  setupFooterCopyright footer query width d = (None, d) ∧
  after_changes (fst (setupFooterCopyright footer query width d)) widths
    (snd (setupFooterCopyright footer query width d)) = d.
Proof.
  intros H.
  assert (Hloc : locate footer query d = None).
  { unfold locate.
    destruct H as [-> | [-> | (c & -> & [Hc | (p & Hp & [Hg | (g & Hg & Hk)])])]];
      simpl; try done.
    - by rewrite Hc.
    - rewrite Hp. simpl. by rewrite Hg.
    - rewrite Hp. simpl. rewrite Hg. simpl.
      unfold lastElementChild. by rewrite Hk. }
  unfold setupFooterCopyright. rewrite Hloc. simpl. split; [done|].
  induction widths as [|w ws IH]; [done|]. exact IH.
Qed.

End FooterExtras.

Lemma footer_setup_without_elements_witness :
  Footer.setupFooterCopyright (Some 41) Samples.footer_query 800
    Samples.footer_tree = (None, Samples.footer_tree).
Proof.
  apply (footer_setup_without_elements (Some 41) Samples.footer_query 800 []
           Samples.footer_tree).
  right. left. reflexivity.
Defined.

(** ** Thumbnail backgrounds *)

Section ThumbExtras.

Import Thumbs Invariants.

Implicit Types (t : thumb) (now : image) (position : option string).

Lemma setBackground_settled position now t0 t :
  settled t0 t → settled t0 (setBackground position now t).
Proof.
  intros H. unfold setBackground.
  destruct (String.eqb_spec (source_of now) "") as [|Hne]; [done|].
  right. split; [done|]. by exists (source_of now).
Qed.

Lemma setBackground_listeners position now t :
  listeners (setBackground position now t) = listeners t.
Proof. unfold setBackground. by destruct (source_of now =? "")%string. Qed.

Lemma run_listeners_settled now (ps : list (option string)) t0 t :
  settled t0 t →
  settled t0 (foldl (λ acc position, setBackground position now acc) t ps).
Proof.
  revert t. induction ps as [|p ps IH]; intros t H; [done|].
  simpl. by apply IH, setBackground_settled.
Qed.

Lemma run_listeners_listeners now (ps : list (option string)) t :
  listeners (foldl (λ acc position, setBackground position now acc) t ps)
  = listeners t.
Proof.
  revert t. induction ps as [|p ps IH]; intros t; [done|].
  simpl. by rewrite IH, setBackground_listeners.
Qed.

Lemma loadEvent_settled now t0 t : settled t0 t → settled t0 (loadEvent now t).
Proof. intros H. unfold loadEvent. by apply run_listeners_settled. Qed.

Lemma loadEvent_listeners now t : listeners (loadEvent now t) = [].
Proof. unfold loadEvent. by rewrite run_listeners_listeners. Qed.

Lemma loadEvent_idle now t : listeners t = [] → loadEvent now t = t.
Proof. intros H. unfold loadEvent. rewrite H. by destruct t; simpl in *; subst. Qed.

Lemma after_loads_idle (nows : list image) t :
  listeners t = [] → after_loads nows t = t.
Proof.
  intros H. induction nows as [|now nows IH]; [done|].
  unfold after_loads in *. simpl. by rewrite loadEvent_idle.
Qed.

(** X18. Whatever the image and however many load events follow, the
    routine hides an image only together with giving the anchor a
    background built from a non-empty source; otherwise display,
    background image and background position stay as they were.  An
    anchor without an image is left alone. *)
Theorem thumb_hidden_only_with_background (img : option image)
    (nows : list image) (t0 : thumb) :
  settled t0 (after_loads nows (updateThumb img t0)) ∧
  (img = None → after_loads nows (updateThumb img t0) = after_loads nows t0).
Proof.
  split; [|by intros ->].
  assert (H1 : settled t0 (updateThumb img t0)).
  { unfold updateThumb. destruct img as [im|]; [|by left].
    destruct (complete im); [|by left].
    apply setBackground_settled. by left. }
  revert H1. generalize (updateThumb img t0). unfold after_loads.
  induction nows as [|now nows IH]; intros t H; [done|].
  simpl. by apply IH, loadEvent_settled.
Qed.

(** X19. The background is set at most once.  For an image that is
    complete at mount it is set at once and no listener is registered, so
    load events change nothing; otherwise it is set by the first load
    event, from the image as it is then and the position read at mount,
    and every later load event changes nothing. *)
Theorem thumb_background_set_once (im : image) (now : image)
    (nows : list image) (t0 : thumb) :
  listeners t0 = [] →
  (complete im = true →
     after_loads (now :: nows) (updateThumb (Some im) t0)
     = setBackground (data_position im) im t0) ∧
  (complete im = false →
     after_loads (now :: nows) (updateThumb (Some im) t0)
     = setBackground (data_position im) now t0).
Proof.
  intros H0. split; intros Hc; unfold updateThumb; rewrite Hc.
  - apply after_loads_idle. by rewrite setBackground_listeners.
  - change (after_loads (now :: nows) ?t)
      with (after_loads nows (loadEvent now t)).
    rewrite after_loads_idle by apply loadEvent_listeners.
    unfold loadEvent. simpl. rewrite H0. simpl.
    unfold setBackground. destruct (source_of now =? "")%string; simpl.
    + destruct t0; simpl in *; by subst.
    + by rewrite H0.
Qed.

End ThumbExtras.

Lemma thumb_background_set_once_witness :
  Thumbs.after_loads [MoreSamples.loaded_image; MoreSamples.loaded_image]
    (Thumbs.updateThumb (Some MoreSamples.pending_image) MoreSamples.plain_thumb)
  = Thumbs.mkThumb "url(https://example.org/one.jpg)" "" "none" [].
Proof.
  destruct (thumb_background_set_once MoreSamples.pending_image
              MoreSamples.loaded_image [MoreSamples.loaded_image]
              MoreSamples.plain_thumb eq_refl) as (_ & H).
  rewrite (H eq_refl). reflexivity.
Defined.

(** ** Header links *)

Section HeaderExtras.

Import HeaderLinks.

Variable header : option node.
Variable anchors : node → list node.
Variable href : node → option string.

Lemma registered_spec (a : node) (target : string) :
  (a, target) ∈ setupHeaderLinks header anchors href ↔
  ∃ h, header = Some h ∧ a ∈ anchors h ∧ href a = Some target ∧
       target ≠ "" ∧ String.prefix "#" target = false.
Proof.
  unfold setupHeaderLinks. destruct header as [h|].
  - rewrite list_elem_of_omap. split.
    + intros (x & Hx & Hsome). destruct (href x) as [s|] eqn:Hs; [|done].
      destruct (String.eqb_spec s "") as [|Hne]; [done|]. simpl in Hsome.
      destruct (String.prefix "#" s) eqn:Hp; [done|].
      injection Hsome as <- <-. by exists h.
    + intros (h' & [= <-] & Ha & Hs & Hne & Hp). exists a. split; [done|].
      rewrite Hs. apply String.eqb_neq in Hne. by rewrite Hne, Hp.
  - split; [by intros ?%elem_of_nil|]. by intros (h & ? & _).
Qed.

Lemma click_unregistered (l : list (node * string)) (a : node)
    (ev : Event) (location : string) :
  (∀ target, (a, target) ∉ l) → click l a ev location = (ev, location).
Proof.
  unfold click. revert ev location.
  induction l as [|[b t] l IH]; intros ev location H; [done|]. simpl.
  destruct (decide (b = a)) as [->|Hne].
  - destruct (H t). apply list_elem_of_here.
  - apply IH. intros target Hin. apply (H target). by apply list_elem_of_further.
Qed.

Lemma click_again (l : list (node * string)) (a : node) (target : string)
    (ev : Event) :
  (∀ t, (a, t) ∈ l → t = target) →
  click l a (stopPropagation (preventDefault ev)) target
  = (stopPropagation (preventDefault ev), target).
Proof.
  unfold click. induction l as [|[b t] l IH]; intros Hl; [done|]. simpl.
  destruct (decide (b = a)) as [->|Hne].
  - assert (t = target) as -> by (apply Hl, list_elem_of_here).
    apply IH. intros t' Ht'. apply Hl. by apply list_elem_of_further.
  - apply IH. intros t' Ht'. apply Hl. by apply list_elem_of_further.
Qed.

Lemma click_registered (l : list (node * string)) (a : node)
    (target : string) (ev : Event) (location : string) :
  (∀ t, (a, t) ∈ l → t = target) →
  (a, target) ∈ l →
  click l a ev location = (stopPropagation (preventDefault ev), target).
Proof.
  revert ev location.
  induction l as [|[b t] l IH]; intros ev location Hl Hin.
  - by apply elem_of_nil in Hin.
  - assert (Hl' : ∀ t', (a, t') ∈ l → t' = target).
    { intros t' Ht'. apply Hl. by apply list_elem_of_further. }
    unfold click. simpl. destruct (decide (b = a)) as [->|Hne].
    + assert (t = target) as -> by (apply Hl, list_elem_of_here).
      by apply click_again.
    + apply elem_of_cons in Hin as [[= -> ->]|Hin]; [done|]. by apply IH.
Qed.

(** X20. A click on a header anchor whose [href] is missing, empty or
    starts with [#] (as that of every panel toggle does) finds no
    listener of this routine: the event is not prevented, not stopped,
    and no navigation is requested. *)
Theorem header_click_on_fragment_link_is_ignored (a : node) (ev : Event)
    (location : string) :
  href a = None ∨ href a = Some "" ∨
  (∃ rest, href a = Some ("#" ++ rest)) →
  click (setupHeaderLinks header anchors href) a ev location = (ev, location).
Proof.
  intros H. apply click_unregistered. intros target Hin.
  apply registered_spec in Hin as (h & _ & _ & Hs & Hne & Hp).
  destruct H as [H | [H | (rest & H)]]; rewrite H in Hs; try done.
  - by injection Hs as <-.
  - injection Hs as <-.
    change ("#" ++ rest) with (String (Ascii.ascii_of_nat 35) rest) in Hp.
    destruct rest; cbv in Hp; discriminate Hp.
Qed.

(** X21. A click on any other anchor of the header prevents the default
    action, stops the propagation and requests the navigation to the
    anchor's [href]; without a header element nothing is registered. *)
Theorem header_click_redirects (h a : node) (target : string) (ev : Event)
    (location : string) :
  header = Some h → a ∈ anchors h → href a = Some target →
  target ≠ "" → String.prefix "#" target = false →
  click (setupHeaderLinks header anchors href) a ev location
  = (stopPropagation (preventDefault ev), target).
Proof.
  intros Hh Ha Hs Hne Hp. apply click_registered.
  - intros t Ht. apply registered_spec in Ht as (_ & _ & _ & Ht & _).
    congruence.
  - apply registered_spec. by exists h.
Qed.

End HeaderExtras.

Lemma header_click_on_fragment_link_is_ignored_witness :
  HeaderLinks.click
    (HeaderLinks.setupHeaderLinks (Some 50) MoreSamples.header_anchors
       MoreSamples.header_href) 52 fresh_event "/"
  = (fresh_event, "/").
Proof.
  apply (header_click_on_fragment_link_is_ignored (Some 50)
           MoreSamples.header_anchors MoreSamples.header_href 52).
  right. right. exists "footer". reflexivity.
Defined.

Lemma header_click_redirects_witness :
  HeaderLinks.click
    (HeaderLinks.setupHeaderLinks (Some 50) MoreSamples.header_anchors
       MoreSamples.header_href) 51 fresh_event "/"
  = (mkEvent true true, "/about").
Proof.
  apply (header_click_redirects (Some 50) MoreSamples.header_anchors
           MoreSamples.header_href 50 51 "/about" fresh_event "/" eq_refl).
  - apply list_elem_of_here.
  - reflexivity.
  - discriminate.
  - reflexivity.
Defined.

(** ** The mount effect *)

Section MountExtras.

Import MountEffect Invariants.

Variable body : node.

Implicit Types (st : state) (e : event) (b : browser).

Lemma handle_timers_sound e st :
  timers_sound st → timers_sound (handle body e st).
Proof.
  intros (H0 & Hr & Hk & Hz & Hp). destruct e as [| |h]; simpl.
  - destruct (listening st); [|done]. unfold onLoad, setTimeout, timers_sound.
    simpl. split; [lia|]. split; [lia|]. split; [|split].
    + intros h cb. destruct (decide (nextHandle st = h)) as [<-|Hne].
      * intros _. lia.
      * rewrite lookup_insert_ne by done. intros H. apply Hk in H. lia.
    + intros h. destruct (decide (nextHandle st = h)) as [<-|Hne].
      * by rewrite lookup_insert_eq.
      * rewrite lookup_insert_ne by done. apply Hz.
    + rewrite lookup_insert_ne by lia. exact Hp.
  - destruct (listening st); [|done]. unfold onResize, setTimeout, timers_sound.
    simpl. split; [lia|]. split; [lia|]. split; [|split].
    + intros h cb. destruct (decide (nextHandle st = h)) as [<-|Hne].
      * intros _. lia.
      * rewrite lookup_insert_ne by done. intros H.
        apply lookup_delete_Some in H as [_ H]. apply Hk in H. lia.
    + intros h. destruct (decide (nextHandle st = h)) as [<-|Hne]; [done|].
      rewrite lookup_insert_ne by done. intros H.
      apply lookup_delete_Some in H as [Hd H]. apply Hz in H. congruence.
    + by rewrite lookup_insert_eq.
  - destruct (timers st !! h) as [cb|] eqn:Hh; [|done].
    assert (Hgoal : timers_sound (clearTimeout h st)).
    { unfold clearTimeout, timers_sound. simpl. split; [done|]. split; [done|].
      split; [|split].
      - intros h' cb' H. apply lookup_delete_Some in H as [_ H]. by eapply Hk.
      - intros h' H. apply lookup_delete_Some in H as [_ H]. by apply Hz.
      - intros H. apply lookup_delete_Some in H as [_ H]. by apply Hp. }
    by destruct cb.
Qed.

Lemma handle_listening e st : listening (handle body e st) = listening st.
Proof.
  destruct e as [| |h]; simpl.
  - destruct (listening st) eqn:E; simpl; congruence.
  - destruct (listening st) eqn:E; simpl; congruence.
  - destruct (timers st !! h) as [[|]|]; done.
Qed.

(** The class follows the pending resize timer. *)
Lemma handle_resizing e st :
  timers_sound st →
  (contains (cls st) body "is-resizing" = true ↔ resizing st) →
  (contains (cls (handle body e st)) body "is-resizing" = true
   ↔ resizing (handle body e st)).
Proof.
  intros (H0 & Hr & Hk & Hz & Hp) Hc. unfold resizing in *.
  destruct e as [| |h]; simpl.
  - destruct (listening st); [|done]. unfold onLoad, setTimeout. simpl.
    rewrite Hc. split; intros (h & Hh).
    + exists h. rewrite lookup_insert_ne; [done|]. apply Hk in Hh. lia.
    + exists h. destruct (decide (nextHandle st = h)) as [<-|Hne].
      * by rewrite lookup_insert_eq in Hh.
      * by rewrite lookup_insert_ne in Hh.
  - destruct (listening st); [|done]. unfold onResize, setTimeout. simpl.
    rewrite contains_add_same. split; [|done]. intros _.
    exists (nextHandle st). by rewrite lookup_insert_eq.
  - destruct (timers st !! h) as [cb|] eqn:Hh; [|done].
    destruct cb; simpl.
    + rewrite contains_remove_other by (right; discriminate). rewrite Hc.
      split; intros (h' & Hh').
      * exists h'. rewrite lookup_delete_ne; [done|]. congruence.
      * apply lookup_delete_Some in Hh' as [_ Hh']. by exists h'.
    + rewrite contains_remove_same. split; [done|]. intros (h' & Hh').
      apply lookup_delete_Some in Hh' as [Hne Hh'].
      apply Hz in Hh, Hh'. congruence.
Qed.

Lemma mountEffect_sound b (first : nat) (d : classes) :
  0 < first →
  timers_sound (mountEffect body b first d) ∧
  listening (mountEffect body b first d) = supportsTransition b ∧
  ¬ resizing (mountEffect body b first d) ∧
  (contains d body "is-resizing" = false →
   contains (cls (mountEffect body b first d)) body "is-resizing" = false).
Proof.
  intros Hf. unfold mountEffect.
  set (d2 := if is_touch b then _ else _).
  assert (Hd2 : contains d2 body "is-resizing" = contains d body "is-resizing").
  { unfold d2. destruct (is_touch b), (is_ie b);
      rewrite ?contains_add_other by (right; discriminate); done. }
  destruct (supportsTransition b); unfold timers_sound, resizing; simpl.
  - split; [|split; [done|split]].
    + split; [lia|]. split; [lia|]. split; [|split].
      * intros h cb H. by rewrite lookup_empty in H.
      * intros h H. by rewrite lookup_empty in H.
      * by rewrite lookup_empty.
    + intros (h & Hh). by rewrite lookup_empty in Hh.
    + intros Hd. by rewrite Hd2.
  - split; [|split; [done|split]].
    + split; [lia|]. split; [lia|]. split; [|split].
      * intros h cb H. apply lookup_insert_Some in H as [[<- _]|[_ H]]; [lia|].
        by rewrite lookup_empty in H.
      * intros h H. apply lookup_insert_Some in H as [[_ H]|[_ H]]; [done|].
        by rewrite lookup_empty in H.
      * rewrite lookup_insert_ne by lia. by rewrite lookup_empty.
    + intros (h & Hh).
      apply lookup_insert_Some in Hh as [[_ H]|[_ H]]; [done|].
      by rewrite lookup_empty in H.
    + intros Hd. by rewrite Hd2.
Qed.

Lemma run_invariant (P : state → Prop) (es : list event) st :
  (∀ e st, P st → P (handle body e st)) → P st → P (run body es st).
Proof.
  intros Hstep. revert st. induction es as [|e es IH]; intros st H; [done|].
  simpl. apply IH. by apply Hstep.
Qed.

(** X22. Resize debounce.  Starting from a body without [is-resizing],
    after the mount effect and any sequence of load events, resize events
    and timer firings, the body carries [is-resizing] exactly while a
    resize timer is pending, and the only resize timer that can be
    pending is the one set by the latest resize; in a browser without
    transitions the class is never set. *)
Theorem resize_class_follows_timer b (first : nat) (d : classes)
    (es : list event) :
  0 < first →
  contains d body "is-resizing" = false →
  let st := run body es (mountEffect body b first d) in
  (contains (cls st) body "is-resizing" = true ↔ resizing st) ∧
  (∀ h, timers st !! h = Some RemoveResizing → h = resizeTimeout st) ∧
  (supportsTransition b = false →
   contains (cls st) body "is-resizing" = false).
Proof.
  intros Hf Hd st.
  destruct (mountEffect_sound b first d Hf) as (Hs & Hl & Hnone & Hc).
  specialize (Hc Hd).
  set (P := λ st, timers_sound st ∧
                  listening st = supportsTransition b ∧
                  (listening st = false → ¬ resizing st) ∧
                  (contains (cls st) body "is-resizing" = true ↔ resizing st)).
  assert (HP : P st).
  { unfold st. apply run_invariant.
    - intros e st' (H1 & H2 & H3 & H4). split; [by apply handle_timers_sound|].
      split; [by rewrite handle_listening|]. split; [|by apply handle_resizing].
      rewrite handle_listening. intros Hoff. specialize (H3 Hoff).
      unfold resizing in *. destruct e as [| |h]; simpl; rewrite ?Hoff; try done.
      destruct (timers st' !! h) as [cb|] eqn:Hh; [|done].
      intros (h' & Hh'). apply H3. exists h'.
      destruct cb; simpl in Hh'; by apply lookup_delete_Some in Hh' as [_ Hh'].
    - split; [done|]. split; [done|]. split; [done|].
      rewrite Hc. split; [done|]. intros Hres. by destruct Hnone. }
  destruct HP as ((_ & _ & _ & Hz & _) & Hlis & Hoff & Hiff).
  split; [done|]. split; [done|]. intros Hno.
  destruct (contains (cls st) body "is-resizing") eqn:E; [|done].
  exfalso. apply Hoff; [congruence|]. by apply Hiff.
Qed.

(** X23. After a resize the class is set and exactly one resize timer is
    pending, the new one; when it fires the class is removed and no
    resize timer is left. *)
Theorem resize_then_timeout b (first : nat) (d : classes) (es : list event) :
  0 < first →
  supportsTransition b = true →
  let st := handle body Resize (run body es (mountEffect body b first d)) in
  contains (cls st) body "is-resizing" = true ∧
  (∀ h, timers st !! h = Some RemoveResizing ↔ h = resizeTimeout st) ∧
  contains (cls (handle body (Timeout (resizeTimeout st)) st)) body "is-resizing"
    = false ∧
  ¬ resizing (handle body (Timeout (resizeTimeout st)) st).
Proof.
  intros Hf Hyes st.
  destruct (mountEffect_sound b first d Hf) as (Hs & Hl & _ & _).
  set (st0 := run body es (mountEffect body b first d)) in *.
  assert (H0 : timers_sound st0 ∧ listening st0 = true).
  { unfold st0. apply (run_invariant (λ st, timers_sound st ∧ listening st = true)).
    - intros e st' [H1 H2]. split; [by apply handle_timers_sound|].
      by rewrite handle_listening.
    - split; [done|congruence]. }
  destruct H0 as [Hs0 Hl0].
  assert (Hst : timers_sound st) by by apply handle_timers_sound.
  destruct Hst as (_ & _ & _ & Hz & _).
  assert (Hnew : timers st !! resizeTimeout st = Some RemoveResizing).
  { unfold st. simpl. rewrite Hl0. unfold onResize, setTimeout. simpl.
    by rewrite lookup_insert_eq. }
  split. { unfold st. simpl. rewrite Hl0. unfold onResize, setTimeout. simpl.
           apply contains_add_same. }
  split. { intros h. split; [apply Hz|by intros ->]. }
  simpl. rewrite Hnew. simpl. split; [apply contains_remove_same|].
  intros (h & Hh). simpl in Hh. apply lookup_delete_Some in Hh as [Hne Hh].
  apply Hz in Hh. congruence.
Qed.

(** X24. The removal of [is-preload] is never cancelled by a resize, and
    once the class is gone no event brings it back. *)
Theorem preload_removal_is_final b (first : nat) (d : classes)
    (es es' : list event) :
  0 < first →
  let st := run body es (mountEffect body b first d) in
  (∀ h, timers st !! h = Some RemovePreload →
     timers (handle body Resize st) !! h = Some RemovePreload) ∧
  (contains (cls st) body "is-preload" = false →
     contains (cls (run body es' st)) body "is-preload" = false).
Proof.
  intros Hf st.
  destruct (mountEffect_sound b first d Hf) as (Hs & _ & _ & _).
  assert (Hst : timers_sound st) by (apply run_invariant;
    [apply handle_timers_sound | done]).
  split.
  - intros h Hh. simpl. destruct (listening st); [|done].
    unfold onResize, setTimeout. simpl.
    destruct Hst as (_ & _ & Hk & Hz & Hp).
    rewrite lookup_insert_ne by (apply Hk in Hh; lia).
    rewrite lookup_delete_ne; [done|]. intros <-. by apply Hp.
  - apply (run_invariant (λ st, contains (cls st) body "is-preload" = false)).
    intros e st' H. destruct e as [| |h]; simpl.
    + by destruct (listening st').
    + destruct (listening st'); [|done]. unfold onResize, setTimeout. simpl.
      rewrite contains_add_other by (right; discriminate). done.
    + destruct (timers st' !! h) as [[|]|]; simpl; try done.
      * apply contains_remove_same.
      * by rewrite contains_remove_other by (right; discriminate).
Qed.

End MountExtras.

Section MountExtraWitnesses.

Import MountEffect.

Let start : state := mountEffect Samples.body MoreSamples.modern 1 ∅.

Lemma resize_class_follows_timer_witness :
  let st := run Samples.body [Resize; Resize; Timeout 1] start in
  contains (cls st) Samples.body "is-resizing" = true ∧
  resizing st ∧ resizeTimeout st = 2.
Proof.
  intros st.
  assert (Hc : contains (cls st) Samples.body "is-resizing" = true) by reflexivity.
  split; [exact Hc|]. split; [|reflexivity].
  destruct (resize_class_follows_timer Samples.body MoreSamples.modern 1 ∅
              [Resize; Resize; Timeout 1] ltac:(lia) eq_refl) as (H & _).
  apply H. exact Hc.
Defined.

Lemma resize_then_timeout_witness :
  let st := handle Samples.body Resize (run Samples.body [Resize] start) in
  resizeTimeout st = 2 ∧
  contains (cls (handle Samples.body (Timeout 2) st)) Samples.body "is-resizing"
    = false.
Proof.
  intros st. split; [reflexivity|].
  destruct (resize_then_timeout Samples.body MoreSamples.modern 1 ∅ [Resize]
              ltac:(lia) eq_refl) as (_ & _ & H & _).
  exact H.
Defined.

Lemma preload_removal_is_final_witness :
  let st := run Samples.body [Load] start in
  timers st !! 1 = Some RemovePreload ∧
  timers (handle Samples.body Resize st) !! 1 = Some RemovePreload.
Proof.
  intros st.
  assert (H1 : timers st !! 1 = Some RemovePreload) by reflexivity.
  split; [exact H1|].
  destruct (preload_removal_is_final Samples.body MoreSamples.modern 1 ∅
              [Load] [] ltac:(lia)) as (H & _).
  apply H. exact H1.
Defined.

End MountExtraWitnesses.

(** ** Navigation and the preload *)

Section PreloadExtras.

Import Gallery Lightbox Invariants.

(** X25. When a navigation in an open lightbox lands on an item whose
    link target is non-empty and differs from the previous one, the
    effect attaches a preload image for the new target, and the loading
    flag afterwards is set exactly when that image is not yet
    complete. *)
Theorem navigation_preloads_new_target (complete : string → bool)
    (e : event) (s : state) (target : string) :
  reachable s → isOpen s = true → navigating e →
  activeHref (step complete e s) = Some target →
  target ≠ "" → activeHref s ≠ Some target →
  preview (step complete e s) = Some target ∧
  isLoading (step complete e s) = negb (complete target).
Proof.
  intros Hr Ho Hnav Ht Hne Hdiff.
  pose proof (reachable_open_range s Hr Ho) as Hi.
  assert (Hopen : isOpen (step complete e s) = true).
  { unfold step. rewrite settle_isOpen.
    assert (Hrend : rendered s = true) by by rewrite reachable_rendered.
    destruct Hnav as [-> | [-> | [-> | [-> | ->]]]]; simpl;
      rewrite ?Hrend, ?onKeyDown_right, ?onKeyDown_left by (auto; lia); done. }
  split.
  - apply preload_coherent_at; [by constructor|done..].
  - unfold step in *. rewrite settle_activeHref in Ht.
    rewrite settle_isOpen in Hopen. unfold settle.
    rewrite decide_False.
    + rewrite preloadEffect_isLoading.
      replace (attached (handle e s)) with (Some target); [done|].
      symmetry. by apply attached_spec.
    + unfold deps. rewrite Ht. congruence.
Qed.

End PreloadExtras.

Lemma navigation_preloads_new_target_witness :
  let s := Lightbox.step Samples.none_cached (Lightbox.AnchorClick 0)
             Samples.mounted in
  Lightbox.preview (Lightbox.step Samples.all_cached Lightbox.NextClick s)
    = Some "two.jpg" ∧
  Lightbox.isLoading (Lightbox.step Samples.all_cached Lightbox.NextClick s)
    = false.
Proof.
  intros s.
  apply (navigation_preloads_new_target Samples.all_cached Lightbox.NextClick s
           "two.jpg").
  - do 2 constructor.
  - reflexivity.
  - right. right. right. left. reflexivity.
  - reflexivity.
  - discriminate.
  - discriminate.
Defined.
